(** * Script number codec of bitcoin-sv: [src/script/int_serialization.h]

    A shallow embedding of the sign-magnitude, little-endian integer codec
    ([bsv::abs], [bsv::serialize], the three [bsv::deserialize] overloads,
    [bsv::IsMinimallyEncoded] and [bsv::MinimallyEncode]) together with the
    properties its specification states about it.

    Conventions of the embedding.
    - A byte ([uint8_t]) is a [Z] in [0, 256); a buffer
      ([std::vector<uint8_t>], an iterator range) is a [list Z].
    - The integer type [T] is [int64_t]: a [Z] in [-2^63, 2^63).  Signed
      arithmetic that leaves the range (negation, left shift) wraps around in
      two's complement, which is written out with [Int64.wrap].  The count of
      a left shift is below 64 on every buffer that fits [T]; see [Int64.shl]
      for the counts beyond.
    - [uint64_t] is a [Z] in [0, 2^64), with wrap-around [Int64.to_unsigned].
    - [assert(f != l)] failing is the result [None]. *)

From Stdlib Require Import ZArith Lia.
From stdpp Require Import base list.

#[local] Open Scope Z_scope.

(** ** Machine integers *)

Module Int64.

Definition half_modulus : Z := 2 ^ 63.
Definition modulus : Z := 2 ^ 64.

(** [sizeof(int64_t)] *)
Definition size : nat := 8.

Definition in_range (z : Z) : Prop := - half_modulus <= z < half_modulus.

(** Two's complement wrap-around into [-2^63, 2^63). *)
Definition wrap (z : Z) : Z := (z + half_modulus) mod modulus - half_modulus.

(** [static_cast<uint64_t>]: wrap-around into [0, 2^64). *)
Definition to_unsigned (z : Z) : Z := z mod modulus.

(** unary minus on [int64_t] *)
Definition neg (z : Z) : Z := wrap (- z).

(** [z << n] on [int64_t]: the bits that leave the 64 are lost.  A count
    of 64 or more is undefined in C++; the shift instructions that the
    64-bit targets provide use the count modulo 64, and so does the
    embedding.  The decoders reach such counts only beyond the eighth byte
    of a buffer. *)
Definition shl (z n : Z) : Z := wrap (Z.shiftl z (n mod 64)).

End Int64.

(** A value of type [uint8_t]. *)
Definition is_byte (x : Z) : Prop := 0 <= x < 256.

(** A buffer all of whose elements are bytes. *)
Definition bytes (l : list Z) : Prop := Forall is_byte l.

(** ** [bsv::abs] *)

(** [-(static_cast<uint64_t>(value))] is a negation in [uint64_t]; the other
    branch converts [value] to [uint64_t] on initialising [absvalue]. *)
Definition abs (value : Z) : Z :=
  let neg := value <? 0 in
  if neg then Int64.to_unsigned (- Int64.to_unsigned value)
  else Int64.to_unsigned value.

(** ** [bsv::serialize] *)

(** The [while(absvalue != 0)] loop.  [o] is the sequence written to the
    output iterator so far; each [*o = x; ++o] appends [x].  Every iteration
    shifts [absvalue] right by 8 bits, so for a [uint64_t] the loop body runs
    at most 8 times: [fuel] bounds the number of iterations (see
    [serialize_loop_fuel]). *)
Fixpoint serialize_loop (fuel : nat) (neg : bool) (absvalue : Z) (o : list Z)
  : list Z :=
  match fuel with
  | O => o
  | S fuel' =>
      if absvalue =? 0 then o
      else
        let tmp := Z.land absvalue 0xff in
        let absvalue := Z.shiftr absvalue 8 in
        let o :=
          if negb (absvalue =? 0) then o ++ [tmp]
          else if negb (Z.land tmp 0x80 =? 0)
               then (o ++ [tmp]) ++ [if neg then 0x80 else 0]
               else o ++ [if neg then Z.lor tmp 0x80 else tmp] in
        serialize_loop fuel' neg absvalue o
  end.

Definition serialize (value : Z) (o : list Z) : list Z :=
  if value =? 0 then o
  else
    let neg := value <? 0 in
    let absvalue := abs value in
    serialize_loop Int64.size neg absvalue o.

(** ** [bsv::deserialize], forward iterators *)

(** The [while(f != l)] loop; [f] is the range still to be read, [i] the
    index of its first byte. *)
Fixpoint deserialize_fwd_loop (f : list Z) (i : Z) (result : Z) : Z :=
  match f with
  | [] => result
  | x :: rest =>
      let tmp := x in
      if bool_decide (rest = []) && negb (Z.land x 0x80 =? 0) then
        let tmp := Z.land tmp 0x7f in
        let tmp := Int64.shl tmp (8 * i) in
        let result := Z.lor result tmp in
        Int64.neg result
      else
        let tmp := Int64.shl tmp (8 * i) in
        let result := Z.lor result tmp in
        deserialize_fwd_loop rest (i + 1) result
  end.

Definition deserialize_fwd (b : list Z) : option Z :=
  match b with
  | [] => None
  | _ => Some (deserialize_fwd_loop b 0 0)
  end.

(** ** [bsv::deserialize], bidirectional iterators *)

(** The body of the [do ... while(f != l)] loop, run from the byte before
    the last one down to the first one. *)
Definition deserialize_bidi_step (result x : Z) : Z :=
  Z.lor (Int64.shl result 8) x.

Definition deserialize_bidi (b : list Z) : option Z :=
  match rev b with
  | [] => None
  | x :: before =>
      let result := x in
      let negative := negb (Z.land x 0x80 =? 0) in
      let result := if negative then Z.land result 0x7f else result in
      match before with
      | [] => Some (if negative then Int64.neg result else result)
      | _ =>
          let result := fold_left deserialize_bidi_step before result in
          Some (if negative then Int64.neg result else result)
      end
  end.

(** ** [bsv::deserialize], random access iterators *)

(** The [for(size_t i{0}; i < d - 1; ++i)] loop, run [n] more times; it
    returns the accumulator together with the advanced iterator [f]. *)
Fixpoint deserialize_ra_loop (n : nat) (f : list Z) (i : Z) (result : Z)
  : Z * list Z :=
  match n with
  | O => (result, f)
  | S n' =>
      let tmp := hd 0 f in
      let tmp := Int64.shl tmp (8 * i) in
      let result := Z.lor result tmp in
      deserialize_ra_loop n' (tail f) (i + 1) result
  end.

Definition deserialize_ra (b : list Z) : option Z :=
  match b with
  | [] => None
  | _ =>
      let d := length b in
      let '(result, f) := deserialize_ra_loop (d - 1) b 0 0 in
      if (Int64.size <? d)%nat then Some result
      else
        let tmp := hd 0 f in
        let negative := negb (Z.land tmp 0x80 =? 0) in
        let tmp := if negative then Z.land tmp 0x7f else tmp in
        let tmp := Int64.shl tmp (8 * Z.of_nat (d - 1)) in
        let result := Z.lor result tmp in
        Some (if negative then Int64.neg result else result)
  end.

(** ** [bsv::IsMinimallyEncoded] *)

(** [vch.back()] is [vch[vch.size() - 1]]; [||] short-circuits in the source,
    so [vch[vch.size() - 2]] is only read when there are two bytes. *)
Definition IsMinimallyEncoded (vch : list Z) (nMaxNumSize : nat) : bool :=
  if (nMaxNumSize <? length vch)%nat then false
  else if (0 <? length vch)%nat then
    if Z.land (vch !!! (length vch - 1)%nat) 0x7f =? 0 then
      if (length vch <=? 1)%nat
         || (Z.land (vch !!! (length vch - 2)%nat) 0x80 =? 0)
      then false
      else true
    else true
  else true.

(** ** [bsv::MinimallyEncode] *)

(** The trimming loop [for(size_t i = data.size() - 1; i > 0; i--)], entered
    with index [i]; falling out of the loop is [data = {}; return true]. The
    result is the returned flag and the buffer after the call. *)
Fixpoint MinimallyEncode_loop (i : nat) (last : Z) (data : list Z)
  : bool * list Z :=
  match i with
  | O => (true, [])
  | S j =>
      if negb (data !!! j =? 0) then
        if negb (Z.land (data !!! j) 0x80 =? 0) then
          let data := <[i := last]> data in
          (true, resize (S i) 0 data)
        else
          let data := <[j := Z.lor (data !!! j) last]> data in
          (true, resize i 0 data)
      else MinimallyEncode_loop j last data
  end.

Definition MinimallyEncode (data : list Z) : bool * list Z :=
  if (length data =? 0)%nat then (false, data)
  else
    let last := data !!! (length data - 1)%nat in
    if negb (Z.land last 0x7f =? 0) then (false, data)
    else if (length data =? 1)%nat then (true, [])
    else if negb (Z.land (data !!! (length data - 2)%nat) 0x80 =? 0)
         then (false, data)
         else MinimallyEncode_loop (length data - 1) last data.

(** ** [bsv::deserialize], dispatch on the iterator category *)

(** [std::iterator_traits<I>::iterator_category] of the iterator type the
    caller passes; overload resolution takes the overload of that tag. *)
Inductive iterator_category : Type :=
| forward_iterator_tag
| bidirectional_iterator_tag
| random_access_iterator_tag.

Definition deserialize (category : iterator_category) (b : list Z)
  : option Z :=
  match b with
  | [] => None
  | _ =>
      match category with
      | forward_iterator_tag => deserialize_fwd b
      | bidirectional_iterator_tag => deserialize_bidi b
      | random_access_iterator_tag => deserialize_ra b
      end
  end.

(** ** Specification-level notions *)

(** The number a little-endian, base-256 digit sequence stands for. *)
Fixpoint le_value (l : list Z) : Z :=
  match l with
  | [] => 0
  | x :: l' => x + 256 * le_value l'
  end.


(** The integer a non-empty buffer [pre ++ [x]] encodes: the low seven bits
    of the last byte [x] are the top of the magnitude, its bit 0x80 is the
    sign. *)
Definition sm_value (pre : list Z) (x : Z) : Z :=
  if x <? 128 then le_value (pre ++ [x]) else - le_value (pre ++ [x - 128]).

(** The canonical encoding of sign [neg] and of the magnitude whose base-256
    digits are [pre ++ [t]], with top digit [t] not zero. *)
Definition canonical (neg : bool) (pre : list Z) (t : Z) : list Z :=
  pre ++ (if t <? 128 then [if neg then t + 128 else t]
          else [t; if neg then 128 else 0]).

(** The buffers the rewriter has nothing to do on: the empty one, those
    whose last byte has one of its low seven bits set, and those whose last
    byte, low seven bits clear, follows a byte with its bit 0x80 set. *)
Definition left_as_given (data : list Z) : Prop :=
  data = []
  \/ (exists pre x, data = pre ++ [x] /\ Z.land x 0x7f <> 0)
  \/ (exists pre y x,
         data = pre ++ [y; x] /\ Z.land x 0x7f = 0 /\ Z.land y 0x80 <> 0).

(** * Properties *)

(** ** Test vectors *)

Section TestVectors.

Example serialize_255 : serialize 255 [] = [0xff; 0x00].
Proof. reflexivity. Qed.

Example serialize_minus_255 : serialize (-255) [] = [0xff; 0x80].
Proof. reflexivity. Qed.

Example serialize_minus_1 : serialize (-1) [0x51] = [0x51; 0x81].
Proof. reflexivity. Qed.

Example serialize_least :
  serialize (- 2 ^ 63) [] = [0; 0; 0; 0; 0; 0; 0; 0x80; 0x80].
Proof. reflexivity. Qed.

Example deserialize_three_bytes :
  deserialize_fwd [1; 2; 0x83] = Some (-197121)
  /\ deserialize_bidi [1; 2; 0x83] = Some (-197121)
  /\ deserialize_ra [1; 2; 0x83] = Some (-197121).
Proof. repeat split; vm_compute; reflexivity. Qed.

Example deserialize_empty :
  deserialize_fwd [] = None /\ deserialize_bidi [] = None
  /\ deserialize_ra [] = None.
Proof. repeat split. Qed.

Example IsMinimallyEncoded_negative_zero : IsMinimallyEncoded [0x80] 4 = false.
Proof. reflexivity. Qed.

Example IsMinimallyEncoded_too_long : IsMinimallyEncoded [1; 2; 3] 2 = false.
Proof. reflexivity. Qed.

Example MinimallyEncode_05_00 : MinimallyEncode [0x05; 0x00] = (true, [0x05]).
Proof. reflexivity. Qed.

Example MinimallyEncode_00_00 : MinimallyEncode [0x00; 0x00] = (true, []).
Proof. reflexivity. Qed.

Example MinimallyEncode_01_80_00 :
  MinimallyEncode [0x01; 0x80; 0x00] = (false, [0x01; 0x80; 0x00]).
Proof. reflexivity. Qed.

Example MinimallyEncode_80_00_80 :
  MinimallyEncode [0x80; 0x00; 0x80] = (true, [0x80; 0x80]).
Proof. reflexivity. Qed.

Example MinimallyEncode_01_70_00_00_80 :
  MinimallyEncode [0x01; 0x70; 0x00; 0x00; 0x80] = (true, [0x01; 0xf0]).
Proof. reflexivity. Qed.

End TestVectors.

(** ** Bytes *)

Section ByteFacts.

(** A property checked on the 256 byte values holds of every byte. *)
Lemma byte_check (f : Z -> bool) :
  forallb f (map Z.of_nat (seq 0 256)) = true ->
  forall x, is_byte x -> f x = true.
Proof.
  intros Hall x [Hlo Hhi].
  rewrite forallb_forall in Hall. apply Hall.
  apply in_map_iff. exists (Z.to_nat x). split; [lia|].
  apply in_seq. lia.
Qed.

Lemma byte_land_7f x : is_byte x -> Z.land x 0x7f = x mod 128.
Proof.
  intros Hx. apply Z.eqb_eq.
  exact (byte_check (fun x => Z.land x 0x7f =? x mod 128) eq_refl x Hx).
Qed.

Lemma byte_land_80 x :
  is_byte x -> Z.land x 0x80 = if x <? 128 then 0 else 128.
Proof.
  intros Hx. apply Z.eqb_eq.
  exact (byte_check
           (fun x => Z.land x 0x80 =? if x <? 128 then 0 else 128)
           eq_refl x Hx).
Qed.

Lemma byte_lor_80 x : is_byte x -> Z.lor x 0x80 = x mod 128 + 128.
Proof.
  intros Hx. apply Z.eqb_eq.
  exact (byte_check (fun x => Z.lor x 0x80 =? x mod 128 + 128) eq_refl x Hx).
Qed.

End ByteFacts.

(** ** Reading a buffer from its end *)

Section BufferEnd.

Implicit Types (l pre : list Z) (x y : Z).

Lemma back_snoc pre x : (pre ++ [x]) !!! (length (pre ++ [x]) - 1)%nat = x.
Proof.
  rewrite length_app. simpl.
  replace (length pre + 1 - 1)%nat with (length pre + 0)%nat by lia.
  apply list_lookup_total_middle. lia.
Qed.

Lemma before_back_snoc pre y x :
  (pre ++ [y; x]) !!! (length (pre ++ [y; x]) - 2)%nat = y.
Proof.
  rewrite length_app. simpl.
  replace (length pre + 2 - 2)%nat with (length pre) by lia.
  apply list_lookup_total_middle. lia.
Qed.

Lemma back_snoc2 pre y x :
  (pre ++ [y; x]) !!! (length (pre ++ [y; x]) - 1)%nat = x.
Proof.
  replace (pre ++ [y; x]) with ((pre ++ [y]) ++ [x])
    by now rewrite <- app_assoc.
  apply back_snoc.
Qed.

(** A buffer is empty, a single byte, or ends in two bytes. *)
Lemma buffer_end_cases l :
  l = [] \/ (exists x, l = [x]) \/ (exists pre y x, l = pre ++ [y; x]).
Proof.
  destruct l as [|a l] using rev_ind; [now left|].
  right. destruct l as [|b l _] using rev_ind.
  - left. now exists a.
  - right. exists l, b, a. now rewrite <- app_assoc.
Qed.

Lemma snoc_eq_inv pre pre' x x' :
  pre ++ [x] = pre' ++ [x'] -> pre = pre' /\ x = x'.
Proof. intros H. apply app_inj_tail in H. exact H. Qed.

End BufferEnd.

(** ** The minimality checker *)

Section Checker.

Implicit Types (b pre : list Z) (x y : Z) (nMaxNumSize : nat).

Lemma IsMinimallyEncoded_nil nMaxNumSize :
  IsMinimallyEncoded [] nMaxNumSize = true.
Proof. unfold IsMinimallyEncoded. simpl. now destruct nMaxNumSize. Qed.

Lemma IsMinimallyEncoded_single x nMaxNumSize :
  IsMinimallyEncoded [x] nMaxNumSize =
  (1 <=? nMaxNumSize)%nat && negb (Z.land x 0x7f =? 0).
Proof.
  unfold IsMinimallyEncoded. simpl length.
  change ([x] !!! (1 - 1)%nat) with x.
  destruct nMaxNumSize as [|n]; simpl; [reflexivity|].
  now destruct (Z.land x 127 =? 0).
Qed.

Lemma IsMinimallyEncoded_two pre y x nMaxNumSize :
  IsMinimallyEncoded (pre ++ [y; x]) nMaxNumSize =
  (length (pre ++ [y; x]) <=? nMaxNumSize)%nat
  && (negb (Z.land x 0x7f =? 0) || negb (Z.land y 0x80 =? 0)).
Proof.
  unfold IsMinimallyEncoded.
  rewrite before_back_snoc, back_snoc2.
  assert (Hlen : (2 <= length (pre ++ [y; x]))%nat)
    by (rewrite length_app; simpl; lia).
  destruct (Nat.ltb_spec nMaxNumSize (length (pre ++ [y; x]))) as [Hgt|Hle].
  - apply Nat.leb_gt in Hgt. now rewrite Hgt.
  - rewrite (proj2 (Nat.leb_le _ _) Hle).
    destruct (Nat.ltb_spec 0 (length (pre ++ [y; x]))); [|lia].
    destruct (Nat.leb_spec (length (pre ++ [y; x])) 1); [lia|].
    simpl. destruct (Z.land x 127 =? 0), (Z.land y 128 =? 0); reflexivity.
Qed.

End Checker.

(** C3. For every buffer [b] and every [nMaxNumSize],
    [IsMinimallyEncoded b nMaxNumSize] is false exactly when [b] is longer
    than [nMaxNumSize], or [b] is not empty, its last byte has its low seven
    bits clear and, in addition, [b] has at most one byte or the bit 0x80 of
    its second-to-last byte is clear; it is true in every other case, the
    empty buffer within the size limit included; the single byte 0x80
    (negative zero) is rejected. *)
Theorem C3_IsMinimallyEncoded_characterisation :
  (forall (b : list Z) (nMaxNumSize : nat),
      let rejected :=
        (nMaxNumSize < length b)%nat
        \/ exists pre x,
            b = pre ++ [x] /\ Z.land x 0x7f = 0
            /\ ((length b <= 1)%nat
                \/ exists pre' y, pre = pre' ++ [y] /\ Z.land y 0x80 = 0) in
      (IsMinimallyEncoded b nMaxNumSize = false <-> rejected)
      /\ (IsMinimallyEncoded b nMaxNumSize = true <-> ~ rejected))
  /\ (forall nMaxNumSize, IsMinimallyEncoded [] nMaxNumSize = true)
  /\ IsMinimallyEncoded [0x80] 4 = false.
Proof.
  split; [|split; [apply IsMinimallyEncoded_nil | reflexivity]].
  intros b nMaxNumSize rejected.
  assert (Hfalse : IsMinimallyEncoded b nMaxNumSize = false <-> rejected).
  { subst rejected.
    destruct (buffer_end_cases b) as [-> | [[x ->] | (pre & y & x & ->)]].
    - rewrite IsMinimallyEncoded_nil. split; [discriminate|].
      intros [H | (pre & x & H & _)]; [simpl in H; lia|].
      now destruct pre.
    - rewrite IsMinimallyEncoded_single. simpl length. split.
      + intros H. apply andb_false_iff in H as [H | H].
        * left. apply Nat.leb_gt in H. lia.
        * right. exists [], x. apply negb_false_iff, Z.eqb_eq in H.
          repeat split; [exact H | left; lia].
      + intros [H | (pre & x' & Heq & Hx & _)]; apply andb_false_iff.
        * left. apply Nat.leb_gt. lia.
        * right. destruct (snoc_eq_inv [] pre x x' Heq) as [_ ->].
          apply negb_false_iff, Z.eqb_eq, Hx.
    - rewrite IsMinimallyEncoded_two. split.
      + intros H. apply andb_false_iff in H as [H | H].
        * left. apply Nat.leb_gt in H. lia.
        * right. apply orb_false_iff in H as [Hx Hy].
          apply negb_false_iff, Z.eqb_eq in Hx, Hy.
          exists (pre ++ [y]), x. rewrite <- app_assoc.
          repeat split; [exact Hx|]. right. now exists pre, y.
      + intros [H | (q & x' & Heq & Hx & Hrest)]; apply andb_false_iff.
        * left. apply Nat.leb_gt. lia.
        * right.
          replace (pre ++ [y; x]) with ((pre ++ [y]) ++ [x]) in Heq
            by now rewrite <- app_assoc.
          destruct (snoc_eq_inv _ _ _ _ Heq) as [<- <-].
          destruct Hrest as [Hlen | (pre' & y' & Heq' & Hy)].
          { rewrite length_app in Hlen. simpl in Hlen. lia. }
          destruct (snoc_eq_inv _ _ _ _ Heq') as [_ ->].
          apply orb_false_iff.
          split; apply negb_false_iff, Z.eqb_eq; assumption. }
  split; [exact Hfalse|].
  rewrite <- Hfalse. now destruct (IsMinimallyEncoded b nMaxNumSize).
Qed.

(** C9 (as the spec lists it): [IsMinimallyEncoded [0xff; 0x00] 4] would be
    false.  It is true: the zero byte is the sign byte that the set bit 0x80
    of 0xff makes necessary. *)
Lemma C9_ff00_is_not_rejected :
  ~ (IsMinimallyEncoded [0xff; 0x00] 4 = false
     /\ IsMinimallyEncoded [0xff; 0x80] 4 = true).
Proof. intros [H _]. vm_compute in H. discriminate H. Qed.

(** C9 (amended): [IsMinimallyEncoded] accepts both [[0xff; 0x00]] and
    [[0xff; 0x80]] with [nMaxNumSize = 4]; they are the encodings of +255 and
    of -255. *)
Theorem C9_IsMinimallyEncoded_255 :
  IsMinimallyEncoded [0xff; 0x00] 4 = true
  /\ IsMinimallyEncoded [0xff; 0x80] 4 = true.
Proof. split; reflexivity. Qed.

(** ** Machine arithmetic *)

Section MachineArithmetic.

Lemma wrap_in_range z : Int64.in_range z -> Int64.wrap z = z.
Proof.
  unfold Int64.in_range, Int64.wrap, Int64.half_modulus, Int64.modulus.
  intros H. rewrite Z.mod_small; lia.
Qed.

Lemma wrap_range z : Int64.in_range (Int64.wrap z).
Proof.
  unfold Int64.in_range, Int64.wrap, Int64.half_modulus, Int64.modulus.
  pose proof (Z.mod_pos_bound (z + 2 ^ 63) (2 ^ 64) ltac:(lia)). lia.
Qed.

(** [bsv::abs] is the absolute value on [int64_t], the least value
    included. *)
Lemma abs_spec value : Int64.in_range value -> abs value = Z.abs value.
Proof.
  unfold Int64.in_range, abs, Int64.to_unsigned, Int64.half_modulus,
    Int64.modulus.
  intros H. destruct (Z.ltb_spec value 0) as [Hneg | Hpos].
  - replace (value mod 2 ^ 64) with (value + 2 ^ 64).
    + replace (- (value + 2 ^ 64)) with (- value + (-1) * 2 ^ 64) by lia.
      rewrite Z.mod_add by lia. rewrite Z.mod_small; lia.
    + symmetry. replace value with (value + 2 ^ 64 + (-1) * 2 ^ 64) at 1
        by lia.
      rewrite Z.mod_add by lia. apply Z.mod_small. lia.
  - rewrite Z.mod_small; lia.
Qed.

(** OR-ing a value shifted past the bits of [a] onto [a] adds them. *)
Lemma lor_shiftl_add a c n :
  0 <= n -> 0 <= a < 2 ^ n -> Z.lor a (Z.shiftl c n) = a + c * 2 ^ n.
Proof.
  intros Hn Ha.
  assert (Hland : Z.land a (Z.shiftl c n) = 0).
  { apply Z.bits_inj'. intros k Hk.
    rewrite Z.land_spec, Z.bits_0.
    destruct (Z.lt_ge_cases k n) as [Hlt | Hge].
    - rewrite Z.shiftl_spec_low by assumption. apply andb_false_r.
    - assert (Z.testbit a k = false) as ->; [|reflexivity].
      destruct (Z.eq_dec a 0) as [-> | Hne]; [apply Z.bits_0|].
      apply Z.bits_above_log2; [lia|].
      apply Z.log2_lt_pow2; [lia|].
      apply Z.lt_le_trans with (2 ^ n); [lia|].
      apply Z.pow_le_mono_r; lia. }
  rewrite <- Z.lxor_lor by assumption.
  rewrite <- Z.add_nocarry_lxor by assumption.
  now rewrite Z.shiftl_mul_pow2.
Qed.

Lemma pow256 (n : nat) : 256 ^ Z.of_nat n = 2 ^ (8 * Z.of_nat n).
Proof. rewrite Z.pow_mul_r by lia. reflexivity. Qed.

Lemma pow256_pos (n : nat) : 0 < 256 ^ Z.of_nat n.
Proof. apply Z.pow_pos_nonneg; lia. Qed.

Lemma pow256_S (n : nat) : 256 ^ Z.of_nat (S n) = 256 * 256 ^ Z.of_nat n.
Proof. rewrite Nat2Z.inj_succ, Z.pow_succ_r; lia. Qed.

Lemma pow256_mono (n m : nat) :
  (n <= m)%nat -> 256 ^ Z.of_nat n <= 256 ^ Z.of_nat m.
Proof. intros H. apply Z.pow_le_mono_r; lia. Qed.

End MachineArithmetic.

(** ** Little-endian digit sequences *)

Section LittleEndian.

Implicit Types (l pre : list Z) (x t : Z).

Lemma bytes_app l l' : bytes (l ++ l') <-> bytes l /\ bytes l'.
Proof. apply Forall_app. Qed.

Lemma bytes_snoc l x : bytes (l ++ [x]) <-> bytes l /\ is_byte x.
Proof.
  rewrite bytes_app. unfold bytes. rewrite Forall_singleton. reflexivity.
Qed.

Lemma le_value_app l l' :
  le_value (l ++ l') = le_value l + 256 ^ Z.of_nat (length l) * le_value l'.
Proof.
  induction l as [|x l IH]; [simpl; lia|].
  change (le_value ((x :: l) ++ l')) with (x + 256 * le_value (l ++ l')).
  change (length (x :: l)) with (S (length l)).
  rewrite IH, pow256_S. simpl le_value. lia.
Qed.

Lemma le_value_snoc l x :
  le_value (l ++ [x]) = le_value l + 256 ^ Z.of_nat (length l) * x.
Proof. rewrite le_value_app. simpl. f_equal. lia. Qed.

Lemma le_value_bound l :
  bytes l -> 0 <= le_value l < 256 ^ Z.of_nat (length l).
Proof.
  induction 1 as [|x l [Hlo Hhi] _ IH]; [simpl; lia|].
  change (length (x :: l)) with (S (length l)).
  rewrite pow256_S. simpl le_value. lia.
Qed.

Lemma le_value_zeros (k : nat) : le_value (replicate k 0) = 0.
Proof. induction k as [|k IH]; simpl; [reflexivity | rewrite IH; lia]. Qed.

Lemma le_value_app_zeros l (k : nat) :
  le_value (l ++ replicate k 0) = le_value l.
Proof. rewrite le_value_app, le_value_zeros. lia. Qed.

(** The digits below a top digit [t] with [lo <= t < hi]. *)
Lemma le_value_snoc_bound l t lo hi :
  bytes l -> lo <= t < hi -> 0 <= lo ->
  lo * 256 ^ Z.of_nat (length l) <= le_value (l ++ [t])
  < hi * 256 ^ Z.of_nat (length l).
Proof.
  intros Hl Ht Hlo. rewrite le_value_snoc.
  pose proof (le_value_bound l Hl). pose proof (pow256_pos (length l)).
  nia.
Qed.

(** Every positive number below [256 ^ k] has at most [k] base-256 digits,
    the top one not zero. *)
Lemma digits_exist (k : nat) m :
  0 < m < 256 ^ Z.of_nat k ->
  exists pre t,
    bytes pre /\ 0 < t < 256 /\ (length pre < k)%nat
    /\ m = le_value (pre ++ [t]).
Proof.
  revert m. induction k as [|k IH]; intros m Hm; [simpl in Hm; lia|].
  rewrite pow256_S in Hm.
  destruct (Z.lt_ge_cases m 256) as [Hsmall | Hbig].
  - exists [], m.
    repeat split; try lia; [constructor | simpl; lia | simpl; lia].
  - destruct (IH (m / 256)) as (pre & t & Hpre & Ht & Hlen & Hval).
    { split; [apply Z.div_str_pos; lia | apply Z.div_lt_upper_bound; lia]. }
    exists (m mod 256 :: pre), t. repeat split; try lia.
    + constructor; [|exact Hpre].
      unfold is_byte. apply Z.mod_pos_bound. lia.
    + simpl. lia.
    + change (le_value ((m mod 256 :: pre) ++ [t]))
        with (m mod 256 + 256 * le_value (pre ++ [t])).
      rewrite <- Hval. rewrite (Z.div_mod m 256) at 1 by lia. lia.
Qed.

End LittleEndian.

(** ** The encoder *)

Section Encoder.

Implicit Types (pre o : list Z) (t m : Z) (neg : bool) (fuel : nat).

Lemma low_byte p v : is_byte p -> Z.land (p + 256 * v) 0xff = p.
Proof.
  intros Hp. change 0xff with (Z.ones 8).
  rewrite Z.land_ones by lia. change (2 ^ 8) with 256.
  replace (p + 256 * v) with (p + v * 256) by lia.
  rewrite Z.mod_add by lia. apply Z.mod_small. exact Hp.
Qed.

Lemma high_bytes p v : is_byte p -> Z.shiftr (p + 256 * v) 8 = v.
Proof.
  intros Hp. rewrite Z.shiftr_div_pow2 by lia. change (2 ^ 8) with 256.
  replace (p + 256 * v) with (p + v * 256) by lia.
  rewrite Z.div_add by lia. rewrite Z.div_small by exact Hp. lia.
Qed.

Lemma serialize_loop_zero fuel neg o : serialize_loop fuel neg 0 o = o.
Proof. destruct fuel; reflexivity. Qed.

(** The loop writes the digits of the magnitude and settles the sign on
    the top one. *)
Lemma serialize_loop_digits pre t fuel neg o :
  bytes pre -> 0 < t < 256 -> (length pre < fuel)%nat ->
  serialize_loop fuel neg (le_value (pre ++ [t])) o
  = o ++ canonical neg pre t.
Proof.
  intros Hpre Ht. revert fuel o.
  induction Hpre as [|p pre Hp Hpre IH]; intros fuel o Hfuel.
  - destruct fuel as [|fuel]; [simpl in Hfuel; lia|].
    assert (Hbyte : is_byte t) by (unfold is_byte; lia).
    change (le_value ([] ++ [t])) with (t + 256 * 0).
    cbn [serialize_loop].
    rewrite low_byte, high_bytes by exact Hbyte.
    destruct (Z.eqb_spec (t + 256 * 0) 0) as [H0 | _]; [lia|].
    cbn [Z.eqb negb]. rewrite serialize_loop_zero.
    rewrite byte_land_80, byte_lor_80 by exact Hbyte.
    unfold canonical. cbn [app].
    destruct (Z.ltb_spec t 128) as [Hlt | Hge]; cbn [Z.eqb negb].
    + rewrite Z.mod_small by lia. reflexivity.
    + now rewrite <- app_assoc.
  - destruct fuel as [|fuel]; [simpl in Hfuel; lia|].
    change (le_value ((p :: pre) ++ [t]))
      with (p + 256 * le_value (pre ++ [t])).
    pose proof (le_value_snoc_bound pre t 1 256 Hpre ltac:(lia) ltac:(lia))
      as Hv.
    pose proof (pow256_pos (length pre)) as Hpow.
    cbn [serialize_loop].
    rewrite low_byte, high_bytes by exact Hp.
    destruct Hp as [Hp0 Hp1].
    destruct (Z.eqb_spec (p + 256 * le_value (pre ++ [t])) 0); [lia|].
    destruct (Z.eqb_spec (le_value (pre ++ [t])) 0); [lia|].
    cbn [negb]. rewrite IH by (simpl in Hfuel; lia).
    unfold canonical. now rewrite <- !app_assoc.
Qed.

(** Eight iterations are all a [uint64_t] can take: more fuel changes
    nothing. *)
Lemma serialize_loop_fuel fuel (k : nat) neg m o :
  0 <= m < 256 ^ Z.of_nat fuel ->
  serialize_loop (fuel + k) neg m o = serialize_loop fuel neg m o.
Proof.
  intros Hm. destruct (Z.eq_dec m 0) as [-> | Hne].
  - now rewrite !serialize_loop_zero.
  - destruct (digits_exist fuel m ltac:(lia))
      as (pre & t & Hpre & Ht & Hlen & ->).
    rewrite !serialize_loop_digits by (assumption || lia). reflexivity.
Qed.

(** What [serialize] writes for a value other than zero. *)
Lemma serialize_canonical value o :
  Int64.in_range value -> value <> 0 ->
  exists pre t,
    bytes pre /\ 0 < t < 256 /\ (length pre < Int64.size)%nat
    /\ Z.abs value = le_value (pre ++ [t])
    /\ serialize value o = o ++ canonical (value <? 0) pre t.
Proof.
  intros Hrange Hne.
  destruct (digits_exist Int64.size (Z.abs value))
    as (pre & t & Hpre & Ht & Hlen & Hval).
  { unfold Int64.in_range, Int64.half_modulus in Hrange.
    change (256 ^ Z.of_nat Int64.size) with (2 ^ 64). lia. }
  exists pre, t. repeat split; try assumption; try lia.
  unfold serialize. destruct (Z.eqb_spec value 0) as [|_]; [contradiction|].
  cbv zeta. rewrite abs_spec by exact Hrange. rewrite Hval.
  now apply serialize_loop_digits.
Qed.

Lemma serialize_zero o : serialize 0 o = o.
Proof. reflexivity. Qed.

Lemma length_canonical neg pre t :
  length (canonical neg pre t)
  = (length pre + if Z.ltb t 128 then 1 else 2)%nat.
Proof.
  unfold canonical. rewrite length_app. now destruct (t <? 128).
Qed.

End Encoder.

(** ** The decoders on buffers that fit [int64_t] *)

Section Decoder.

Implicit Types (pre rest b : list Z) (x p result : Z) (i : nat).

(** A left shift that stays inside [int64_t] is a multiplication. *)
Lemma shl_exact c i :
  0 <= c -> c * 256 ^ Z.of_nat i < 2 ^ 63 ->
  Int64.shl c (8 * Z.of_nat i) = c * 256 ^ Z.of_nat i.
Proof.
  intros Hc Hlt. unfold Int64.shl.
  destruct (Z.eq_dec c 0) as [-> | Hne].
  { rewrite Z.shiftl_0_l, Z.mul_0_l. reflexivity. }
  assert (Hi : (i <= 7)%nat).
  { destruct (Nat.le_gt_cases i 7) as [|Hbig]; [assumption|]. exfalso.
    pose proof (pow256_mono 8 i ltac:(lia)) as Hm.
    change (256 ^ Z.of_nat 8) with (2 ^ 64) in Hm. nia. }
  rewrite (Z.mod_small (8 * Z.of_nat i)) by lia.
  rewrite Z.shiftl_mul_pow2, <- pow256 by lia.
  apply wrap_in_range. unfold Int64.in_range, Int64.half_modulus.
  pose proof (pow256_pos i). nia.
Qed.

Lemma lor_shl_exact a c i :
  0 <= a < 256 ^ Z.of_nat i -> 0 <= c -> c * 256 ^ Z.of_nat i < 2 ^ 63 ->
  Z.lor a (Int64.shl c (8 * Z.of_nat i)) = a + c * 256 ^ Z.of_nat i.
Proof.
  intros Ha Hc Hlt. rewrite shl_exact by assumption.
  rewrite pow256 in *.
  rewrite <- lor_shiftl_add by lia.
  now rewrite Z.shiftl_mul_pow2 by lia.
Qed.

Lemma neg_exact z : 0 <= z < 2 ^ 63 -> Int64.neg z = - z.
Proof.
  intros H. apply wrap_in_range.
  unfold Int64.in_range, Int64.half_modulus. lia.
Qed.

(** The sign test and the masking of the last byte. *)
Lemma sign_bit x : is_byte x -> negb (Z.land x 0x80 =? 0) = (128 <=? x).
Proof.
  intros Hx. rewrite byte_land_80 by exact Hx.
  destruct (Z.ltb_spec x 128), (Z.leb_spec 128 x); try lia; reflexivity.
Qed.

Lemma magnitude_bits x : is_byte x -> 128 <= x -> Z.land x 0x7f = x - 128.
Proof.
  intros [H0 H1] H. rewrite byte_land_7f by (split; assumption).
  replace x with ((x - 128) + 1 * 128) at 1 by lia.
  rewrite Z.mod_add by lia. apply Z.mod_small. lia.
Qed.

(** The magnitude of a buffer of at most eight bytes is below [2^63]. *)
Lemma magnitude_bound pre t :
  bytes pre -> 0 <= t < 128 -> (length pre <= 7)%nat ->
  0 <= le_value (pre ++ [t]) < 2 ^ 63.
Proof.
  intros Hpre Ht Hlen.
  pose proof (le_value_snoc_bound pre t 0 128 Hpre ltac:(lia) ltac:(lia)).
  pose proof (pow256_mono (length pre) 7 Hlen).
  change (256 ^ Z.of_nat 7) with (2 ^ 56) in *. lia.
Qed.

(** *** Bidirectional iterators *)

Lemma bidi_fold pre top :
  bytes pre -> 0 <= top < 128 -> (length pre <= 7)%nat ->
  fold_left deserialize_bidi_step (rev pre) top = le_value (pre ++ [top]).
Proof.
  intros Hpre Htop. induction Hpre as [|p pre Hp Hpre IH]; intros Hlen.
  - simpl. lia.
  - simpl in Hlen. cbn [rev]. rewrite fold_left_app. cbn [fold_left].
    rewrite IH by lia. unfold deserialize_bidi_step.
    pose proof (magnitude_bound pre top Hpre Htop ltac:(lia)) as Hv.
    pose proof (le_value_snoc_bound pre top 0 128 Hpre ltac:(lia)
                  ltac:(lia)) as Hv'.
    pose proof (pow256_mono (length pre) 6 ltac:(lia)) as Hpow.
    change (256 ^ Z.of_nat 6) with (2 ^ 48) in Hpow.
    change 8 with (8 * Z.of_nat 1) at 1.
    rewrite Z.lor_comm, lor_shl_exact.
    + change (256 ^ Z.of_nat 1) with 256.
      change (le_value ((p :: pre) ++ [top]))
        with (p + 256 * le_value (pre ++ [top])). lia.
    + exact Hp.
    + lia.
    + change (256 ^ Z.of_nat 1) with 256. lia.
Qed.

Lemma deserialize_bidi_snoc pre x :
  bytes (pre ++ [x]) -> (length (pre ++ [x]) <= Int64.size)%nat ->
  deserialize_bidi (pre ++ [x]) = Some (sm_value pre x).
Proof.
  intros Hb Hlen. apply bytes_snoc in Hb as [Hpre Hx].
  rewrite length_app in Hlen. simpl in Hlen. unfold Int64.size in Hlen.
  unfold deserialize_bidi. rewrite rev_unit. cbv zeta.
  rewrite sign_bit by exact Hx.
  set (top := if 128 <=? x then Z.land x 127 else x).
  assert (Htop : 0 <= top < 128 /\ top = if x <? 128 then x else x - 128).
  { subst top. destruct Hx as [Hx0 Hx1].
    destruct (Z.leb_spec 128 x), (Z.ltb_spec x 128); try lia.
    rewrite magnitude_bits by (unfold is_byte; lia). lia. }
  destruct Htop as [Htop Htop'].
  assert (Hfold : fold_left deserialize_bidi_step (rev pre) top
                  = le_value (pre ++ [top]))
    by (apply bidi_fold; [assumption | assumption | lia]).
  pose proof (magnitude_bound pre top Hpre Htop ltac:(lia)) as Hv.
  assert (Hres : (if 128 <=? x
                  then Int64.neg (fold_left deserialize_bidi_step (rev pre) top)
                  else fold_left deserialize_bidi_step (rev pre) top)
                 = sm_value pre x).
  { rewrite Hfold. unfold sm_value. rewrite Htop'.
    destruct (Z.leb_spec 128 x), (Z.ltb_spec x 128);
      try lia; try reflexivity.
    apply neg_exact. rewrite Htop' in Hv.
    destruct (Z.ltb_spec x 128); [lia | exact Hv]. }
  destruct (rev pre) as [|y before]; now rewrite <- Hres.
Qed.

(** *** Forward iterators *)

(** One accumulation step: byte [c] lands on top of the [i] bytes already
    in [result]. *)
Lemma accumulate_exact result c i (k : nat) hi :
  0 <= result < 256 ^ Z.of_nat i -> 0 <= c < hi -> hi <= 256 ->
  (i + k <= 7)%nat -> hi * 256 ^ Z.of_nat (i + k) <= 2 ^ 63 ->
  Z.lor result (Int64.shl c (8 * Z.of_nat i))
  = result + c * 256 ^ Z.of_nat i
  /\ 0 <= result + c * 256 ^ Z.of_nat i < hi * 256 ^ Z.of_nat i.
Proof.
  intros Hres Hc Hhi Hik Htop.
  pose proof (pow256_pos i) as Hi.
  pose proof (pow256_mono i (i + k) ltac:(lia)) as Hmono.
  split; [|nia].
  apply lor_shl_exact; [exact Hres | lia | nia].
Qed.

Lemma fwd_loop_snoc pre x i result :
  bytes pre -> is_byte x -> 0 <= result < 256 ^ Z.of_nat i ->
  (i + length pre <= 7)%nat ->
  deserialize_fwd_loop (pre ++ [x]) (Z.of_nat i) result
  = if x <? 128 then result + 256 ^ Z.of_nat i * le_value (pre ++ [x])
    else - (result + 256 ^ Z.of_nat i * le_value (pre ++ [x - 128])).
Proof.
  intros Hpre Hx. revert i result.
  induction Hpre as [|p pre Hp Hpre IH]; intros i result Hres Hlen.
  - simpl in Hlen. cbn [app deserialize_fwd_loop].
    rewrite bool_decide_eq_true_2 by reflexivity. cbn [andb].
    rewrite sign_bit by exact Hx. cbn [le_value].
    assert (Htop : 128 * 256 ^ Z.of_nat (i + 0) <= 2 ^ 63).
    { pose proof (pow256_mono (i + 0) 7 ltac:(lia)) as H.
      change (256 ^ Z.of_nat 7) with (2 ^ 56) in H. lia. }
    destruct Hx as [Hx0 Hx1].
    destruct (Z.leb_spec 128 x), (Z.ltb_spec x 128); try lia.
    + rewrite magnitude_bits by (unfold is_byte; lia).
      destruct (accumulate_exact result (x - 128) i 0 128)
        as [-> Hb]; try lia.
      rewrite neg_exact.
      * f_equal. lia.
      * pose proof (pow256_mono i 7 ltac:(lia)) as H'.
        change (256 ^ Z.of_nat 7) with (2 ^ 56) in H'. lia.
    + destruct (accumulate_exact result x i 0 128) as [-> Hb]; try lia.
  - simpl in Hlen.
    change ((p :: pre) ++ [x]) with (p :: (pre ++ [x])).
    cbn [deserialize_fwd_loop].
    rewrite bool_decide_eq_false_2 by (now destruct pre). cbn [andb].
    assert (Htop : 256 * 256 ^ Z.of_nat (i + 0) <= 2 ^ 63).
    { pose proof (pow256_mono (i + 0) 6 ltac:(lia)) as H.
      change (256 ^ Z.of_nat 6) with (2 ^ 48) in H. lia. }
    destruct (accumulate_exact result p i 0 256)
      as [-> Hb]; try lia; [exact Hp|].
    replace (Z.of_nat i + 1) with (Z.of_nat (S i)) by lia.
    rewrite IH; [|rewrite pow256_S; lia|lia].
    rewrite pow256_S. cbn [le_value app].
    destruct (x <? 128); ring.
Qed.

Lemma deserialize_fwd_snoc pre x :
  bytes (pre ++ [x]) -> (length (pre ++ [x]) <= Int64.size)%nat ->
  deserialize_fwd (pre ++ [x]) = Some (sm_value pre x).
Proof.
  intros Hb Hlen. apply bytes_snoc in Hb as [Hpre Hx].
  rewrite length_app in Hlen. simpl in Hlen. unfold Int64.size in Hlen.
  unfold deserialize_fwd.
  destruct (pre ++ [x]) as [|y l] eqn:E; [now destruct pre|].
  rewrite <- E. f_equal.
  change 0 with (Z.of_nat 0) at 1.
  rewrite fwd_loop_snoc; [|assumption|assumption|simpl; lia|lia].
  unfold sm_value. change (256 ^ Z.of_nat 0) with 1.
  destruct (x <? 128); lia.
Qed.

(** *** Random access iterators *)

Lemma ra_loop_exact pre rest i result :
  bytes pre -> 0 <= result < 256 ^ Z.of_nat i ->
  (i + length pre <= 7)%nat ->
  deserialize_ra_loop (length pre) (pre ++ rest) (Z.of_nat i) result
  = (result + 256 ^ Z.of_nat i * le_value pre, rest).
Proof.
  intros Hpre. revert i result.
  induction Hpre as [|p pre Hp Hpre IH]; intros i result Hres Hlen.
  - simpl. f_equal. lia.
  - simpl in Hlen.
    change (length (p :: pre)) with (S (length pre)).
    change ((p :: pre) ++ rest) with (p :: (pre ++ rest)).
    cbn [deserialize_ra_loop hd tail].
    assert (Htop : 256 * 256 ^ Z.of_nat (i + 0) <= 2 ^ 63).
    { pose proof (pow256_mono (i + 0) 6 ltac:(lia)) as H.
      change (256 ^ Z.of_nat 6) with (2 ^ 48) in H. lia. }
    destruct (accumulate_exact result p i 0 256)
      as [-> Hb]; try lia; [exact Hp|].
    replace (Z.of_nat i + 1) with (Z.of_nat (S i)) by lia.
    rewrite IH; [|rewrite pow256_S; lia|lia].
    rewrite pow256_S. cbn [le_value]. f_equal. ring.
Qed.

Lemma deserialize_ra_snoc pre x :
  bytes (pre ++ [x]) -> (length (pre ++ [x]) <= Int64.size)%nat ->
  deserialize_ra (pre ++ [x]) = Some (sm_value pre x).
Proof.
  intros Hb Hlen. apply bytes_snoc in Hb as [Hpre Hx].
  unfold deserialize_ra.
  destruct (pre ++ [x]) as [|y l] eqn:E; [now destruct pre|].
  rewrite <- E in *. clear E y l.
  destruct (Nat.ltb_spec Int64.size (length (pre ++ [x]))) as [|_]; [lia|].
  rewrite length_app in *. simpl in Hlen. unfold Int64.size in Hlen.
  replace (length pre + length [x] - 1)%nat with (length pre)
    by (simpl; lia).
  change 0 with (Z.of_nat 0) at 1.
  rewrite ra_loop_exact; [|assumption|simpl; lia|lia].
  change (256 ^ Z.of_nat 0) with 1. cbn [hd].
  rewrite sign_bit by exact Hx.
  pose proof (le_value_bound pre Hpre) as Hv.
  assert (Htop : 128 * 256 ^ Z.of_nat (length pre + 0) <= 2 ^ 63).
  { pose proof (pow256_mono (length pre + 0) 7 ltac:(lia)) as H.
    change (256 ^ Z.of_nat 7) with (2 ^ 56) in H. lia. }
  unfold sm_value. rewrite !le_value_snoc.
  destruct Hx as [Hx0 Hx1].
  destruct (Z.leb_spec 128 x), (Z.ltb_spec x 128); try lia.
  - rewrite magnitude_bits by (unfold is_byte; lia).
    destruct (accumulate_exact (0 + 1 * le_value pre) (x - 128)
                (length pre) 0 128) as [-> Hb]; try lia.
    rewrite neg_exact.
    + f_equal. lia.
    + pose proof (pow256_mono (length pre) 7 ltac:(lia)) as H'.
      change (256 ^ Z.of_nat 7) with (2 ^ 56) in H'. lia.
  - destruct (accumulate_exact (0 + 1 * le_value pre) x
                (length pre) 0 128) as [-> Hb]; try lia.
    f_equal. lia.
Qed.

End Decoder.

(** ** Decoding what the encoder writes *)

Section DecodeCanonical.

(** Any of the three decoders, through what it does on a buffer of at most
    eight bytes. *)
Variable decode : list Z -> option Z.
Hypothesis decode_snoc :
  forall pre x,
    bytes (pre ++ [x]) -> (length (pre ++ [x]) <= Int64.size)%nat ->
    decode (pre ++ [x]) = Some (sm_value pre x).

Lemma digits_length pre t hi :
  bytes pre -> 0 < t ->
  le_value (pre ++ [t]) < 256 ^ Z.of_nat hi -> (length pre < hi)%nat.
Proof.
  intros Hpre Ht Hlt.
  destruct (Nat.lt_ge_cases (length pre) hi) as [|Hge]; [assumption|].
  pose proof (pow256_mono hi (length pre) Hge).
  pose proof (le_value_bound pre Hpre). pose proof (pow256_pos (length pre)).
  rewrite le_value_snoc in Hlt. nia.
Qed.

Lemma decode_canonical neg pre t :
  bytes pre -> 0 < t < 256 -> le_value (pre ++ [t]) < 2 ^ 63 ->
  decode (canonical neg pre t)
  = Some (if neg then - le_value (pre ++ [t]) else le_value (pre ++ [t])).
Proof.
  intros Hpre Ht Hlt. unfold canonical.
  destruct (Z.ltb_spec t 128) as [Hsmall | Hbig].
  - assert (Hlen : (length pre < 8)%nat).
    { apply (digits_length pre t 8 Hpre); [lia|].
      change (256 ^ Z.of_nat 8) with (2 ^ 64). lia. }
    rewrite decode_snoc.
    + unfold sm_value. destruct neg.
      * destruct (Z.ltb_spec (t + 128) 128); [lia|].
        now replace (t + 128 - 128) with t by lia.
      * destruct (Z.ltb_spec t 128); [reflexivity | lia].
    + apply bytes_snoc. split; [exact Hpre|].
      unfold is_byte. destruct neg; lia.
    + rewrite length_app. simpl. unfold Int64.size. lia.
  - assert (Hlen : (length pre < 7)%nat).
    { destruct (Nat.lt_ge_cases (length pre) 7) as [|Hge]; [assumption|].
      pose proof (pow256_mono 7 (length pre) Hge) as Hm.
      change (256 ^ Z.of_nat 7) with (2 ^ 56) in Hm.
      pose proof (le_value_bound pre Hpre).
      rewrite le_value_snoc in Hlt. nia. }
    replace (pre ++ [t; if neg then 128 else 0])
      with ((pre ++ [t]) ++ [if neg then 128 else 0])
      by now rewrite <- app_assoc.
    rewrite decode_snoc.
    + unfold sm_value. destruct neg.
      * change (128 <? 128) with false. cbv iota.
        change (128 - 128) with 0.
        rewrite (le_value_snoc (pre ++ [t]) 0). do 2 f_equal. lia.
      * change (0 <? 128) with true. cbv iota.
        rewrite (le_value_snoc (pre ++ [t]) 0). f_equal. lia.
    + apply bytes_snoc. split.
      * apply bytes_snoc. split; [exact Hpre | unfold is_byte; lia].
      * unfold is_byte. destruct neg; lia.
    + rewrite !length_app. simpl. unfold Int64.size. lia.
Qed.

Lemma decode_serialize value :
  Int64.in_range value -> value <> 0 -> value <> - 2 ^ 63 ->
  decode (serialize value []) = Some value.
Proof.
  intros Hrange Hne Hmin.
  destruct (serialize_canonical value [] Hrange Hne)
    as (pre & t & Hpre & Ht & Hlen & Hval & ->).
  cbn [app]. unfold Int64.in_range, Int64.half_modulus in Hrange.
  rewrite decode_canonical by (assumption || lia).
  rewrite <- Hval. f_equal.
  destruct (Z.ltb_spec value 0); lia.
Qed.

End DecodeCanonical.

(** C1. For every [int64_t] value [n] other than zero, [serialize] writes a
    buffer that is not empty and that [deserialize] reads back as [n],
    whichever of its three overloads is taken (the bidirectional one among
    them); for [n = 0], [serialize] writes nothing, and the empty buffer is
    the integer 0 by the callers' convention, [deserialize] itself refusing
    it. *)
Theorem C1_deserialize_serialize (n : Z) :
  Int64.in_range n ->
  (n = 0 -> serialize n [] = [] /\ deserialize_bidi [] = None)
  /\ (n <> 0 ->
      serialize n [] <> []
      /\ deserialize_bidi (serialize n []) = Some n
      /\ deserialize_fwd (serialize n []) = Some n
      /\ deserialize_ra (serialize n []) = Some n).
Proof.
  intros Hrange. split; [intros ->; split; reflexivity|].
  intros Hne. split.
  - destruct (serialize_canonical n [] Hrange Hne)
      as (pre & t & _ & _ & _ & _ & ->).
    unfold canonical. cbn [app].
    destruct pre; destruct (t <? 128); discriminate.
  - destruct (Z.eq_dec n (- 2 ^ 63)) as [-> | Hmin].
    + repeat split; vm_compute; reflexivity.
    + repeat split.
      * now apply (decode_serialize deserialize_bidi deserialize_bidi_snoc).
      * now apply (decode_serialize deserialize_fwd deserialize_fwd_snoc).
      * now apply (decode_serialize deserialize_ra deserialize_ra_snoc).
Qed.

Lemma C1_deserialize_serialize_witness :
  Int64.in_range (-255)
  /\ deserialize_bidi (serialize (-255) []) = Some (-255).
Proof.
  assert (H : Int64.in_range (-255))
    by (unfold Int64.in_range, Int64.half_modulus; lia).
  split; [exact H|].
  apply (C1_deserialize_serialize (-255) H). discriminate.
Defined.

(** C6 (as the spec states it): the three decoders would agree on every
    buffer that is not empty.  On the nine bytes [1, 0, ..., 0, 0x80] the
    forward and the bidirectional decoders return -1, the random access one,
    which leaves out the sign of a buffer longer than [sizeof(T)], returns
    1. *)
Lemma C6_variants_differ_on_nine_bytes :
  let b := [1; 0; 0; 0; 0; 0; 0; 0; 0x80] in
  bytes b /\ b <> []
  /\ deserialize_fwd b = Some (-1)
  /\ deserialize_bidi b = Some (-1)
  /\ deserialize_ra b = Some 1
  /\ ~ (deserialize_fwd b = deserialize_bidi b
        /\ deserialize_bidi b = deserialize_ra b).
Proof.
  cbv zeta. repeat split; try (vm_compute; reflexivity); try discriminate.
  - repeat constructor; unfold is_byte; lia.
  - intros [_ H]. vm_compute in H. discriminate H.
Qed.

(** C6 (amended): on every buffer of at least one and at most [sizeof(T)]
    = 8 bytes, the forward, the bidirectional and the random access
    [deserialize] return the same integer. *)
Theorem C6_deserialize_variants_agree (b : list Z) :
  bytes b -> b <> [] -> (length b <= Int64.size)%nat ->
  exists v,
    deserialize_fwd b = Some v
    /\ deserialize_bidi b = Some v
    /\ deserialize_ra b = Some v.
Proof.
  intros Hb Hne Hlen.
  destruct b as [|x pre _] using rev_ind; [contradiction|].
  exists (sm_value pre x). repeat split.
  - now apply deserialize_fwd_snoc.
  - now apply deserialize_bidi_snoc.
  - now apply deserialize_ra_snoc.
Qed.

Lemma C6_deserialize_variants_agree_witness :
  exists v,
    deserialize_fwd [1; 2; 0x83] = Some v
    /\ deserialize_bidi [1; 2; 0x83] = Some v
    /\ deserialize_ra [1; 2; 0x83] = Some v.
Proof.
  apply (C6_deserialize_variants_agree [1; 2; 0x83]).
  - repeat constructor; unfold is_byte; lia.
  - discriminate.
  - unfold Int64.size. simpl. lia.
Defined.

(** ** The encoder writes minimal encodings *)

Section EncoderMinimal.

Implicit Types (pre : list Z) (x t : Z) (neg : bool).

Lemma IsMinimallyEncoded_snoc_nonzero pre x nMaxNumSize :
  Z.land x 0x7f <> 0 ->
  IsMinimallyEncoded (pre ++ [x]) nMaxNumSize
  = (length (pre ++ [x]) <=? nMaxNumSize)%nat.
Proof.
  intros Hx. unfold IsMinimallyEncoded. rewrite back_snoc.
  apply Z.eqb_neq in Hx. rewrite Hx.
  destruct (Nat.ltb_spec nMaxNumSize (length (pre ++ [x])));
    destruct (Nat.leb_spec (length (pre ++ [x])) nMaxNumSize);
    try lia; try reflexivity.
  now destruct (0 <? length (pre ++ [x]))%nat.
Qed.

Lemma canonical_minimal neg pre t nMaxNumSize :
  0 < t < 256 ->
  (length (canonical neg pre t) <= nMaxNumSize)%nat ->
  IsMinimallyEncoded (canonical neg pre t) nMaxNumSize = true.
Proof.
  intros Ht. unfold canonical.
  destruct (Z.ltb_spec t 128) as [Hsmall | Hbig]; intros Hlen.
  - rewrite IsMinimallyEncoded_snoc_nonzero; [now apply Nat.leb_le|].
    destruct neg.
    + rewrite byte_land_7f by (unfold is_byte; lia).
      replace (t + 128) with (t + 1 * 128) by lia.
      rewrite Z.mod_add, Z.mod_small; lia.
    + rewrite byte_land_7f, Z.mod_small; unfold is_byte; lia.
  - rewrite IsMinimallyEncoded_two.
    apply andb_true_iff. split; [now apply Nat.leb_le|].
    apply orb_true_iff. right.
    rewrite sign_bit by (unfold is_byte; lia). now apply Z.leb_le.
Qed.


End EncoderMinimal.

(** C4. For every [int64_t] value [n], what [serialize] writes is minimal:
    [IsMinimallyEncoded] accepts it under every [nMaxNumSize] that is at
    least its length.  A last byte whose low seven bits are clear is only
    ever written after a byte whose bit 0x80 is set: no redundant trailing
    zero byte is written. *)
Theorem C4_serialize_is_minimal (n : Z) (nMaxNumSize : nat) :
  Int64.in_range n ->
  (length (serialize n []) <= nMaxNumSize)%nat ->
  IsMinimallyEncoded (serialize n []) nMaxNumSize = true
  /\ (forall pre x,
         serialize n [] = pre ++ [x] -> Z.land x 0x7f = 0 ->
         exists pre' y, pre = pre' ++ [y] /\ Z.land y 0x80 <> 0).
Proof.
  intros Hrange Hlen.
  destruct (Z.eq_dec n 0) as [-> | Hne].
  { split; [apply IsMinimallyEncoded_nil|].
    intros pre x H. now destruct pre. }
  destruct (serialize_canonical n [] Hrange Hne)
    as (pre & t & Hpre & Ht & _ & _ & Heq).
  cbn [app] in Heq. rewrite Heq in *.
  split; [now apply canonical_minimal|].
  intros q x Hq Hx. unfold canonical in Hq.
  destruct (Z.ltb_spec t 128) as [Hsmall | Hbig].
  - apply snoc_eq_inv in Hq as [_ <-]. exfalso.
    destruct (n <? 0).
    + rewrite byte_land_7f in Hx by (unfold is_byte; lia).
      replace (t + 128) with (t + 1 * 128) in Hx by lia.
      rewrite Z.mod_add, Z.mod_small in Hx; lia.
    + rewrite byte_land_7f, Z.mod_small in Hx; unfold is_byte; lia.
  - replace (pre ++ [t; if n <? 0 then 128 else 0])
      with ((pre ++ [t]) ++ [if n <? 0 then 128 else 0]) in Hq
      by now rewrite <- app_assoc.
    apply snoc_eq_inv in Hq as [<- _]. exists pre, t. split; [reflexivity|].
    rewrite byte_land_80 by (unfold is_byte; lia).
    destruct (Z.ltb_spec t 128); lia.
Qed.

Lemma C4_serialize_is_minimal_witness :
  IsMinimallyEncoded (serialize (-255) []) 4 = true.
Proof.
  apply (C4_serialize_is_minimal (-255) 4).
  - unfold Int64.in_range, Int64.half_modulus. lia.
  - simpl. lia.
Defined.



(** ** The random access decoder on nine bytes *)

Section RandomAccessNine.

Implicit Types (pre rest b : list Z) (x last result : Z) (n : nat).

Lemma ra_loop_app pre rest n i result :
  deserialize_ra_loop (length pre + n) (pre ++ rest) i result
  = deserialize_ra_loop n rest (i + Z.of_nat (length pre))
      (fst (deserialize_ra_loop (length pre) (pre ++ rest) i result)).
Proof.
  revert i result. induction pre as [|p pre IH]; intros i result.
  - simpl. f_equal. lia.
  - change (length (p :: pre) + n)%nat with (S (length pre + n)).
    change (length (p :: pre)) with (S (length pre)).
    change ((p :: pre) ++ rest) with (p :: (pre ++ rest)).
    cbn [deserialize_ra_loop hd tail]. rewrite IH. f_equal. lia.
Qed.

(** The eighth byte reaches the sign bit of the accumulator. *)
Lemma lor_shl_top result x :
  0 <= result < 2 ^ 56 -> is_byte x ->
  Z.lor result (Int64.shl x 56) = Int64.wrap (result + x * 2 ^ 56).
Proof.
  intros Hres [Hx0 Hx1]. unfold Int64.shl. change (56 mod 64) with 56.
  rewrite Z.shiftl_mul_pow2 by lia.
  destruct (Z.lt_ge_cases x 128) as [Hsmall | Hbig].
  - rewrite !wrap_in_range
      by (unfold Int64.in_range, Int64.half_modulus; lia).
    rewrite <- lor_shiftl_add by lia.
    now rewrite Z.shiftl_mul_pow2 by lia.
  - assert (Hw : forall z, 2 ^ 63 <= z < 2 ^ 64 -> Int64.wrap z = z - 2 ^ 64).
    { intros z Hz.
      unfold Int64.wrap, Int64.half_modulus, Int64.modulus.
      replace (z + 2 ^ 63) with (z - 2 ^ 63 + 1 * 2 ^ 64) by lia.
      rewrite Z.mod_add by lia. rewrite Z.mod_small; lia. }
    rewrite !Hw by lia.
    replace (x * 2 ^ 56 - 2 ^ 64) with ((x - 256) * 2 ^ 56) by lia.
    replace (result + x * 2 ^ 56 - 2 ^ 64)
      with (result + (x - 256) * 2 ^ 56) by lia.
    rewrite <- lor_shiftl_add by lia.
    now rewrite Z.shiftl_mul_pow2 by lia.
Qed.

(** The [int64_t] that has the 64 bits of [m]. *)
Lemma wrap_of_unsigned m :
  0 <= m < 2 ^ 64 ->
  Int64.wrap m = (if m <? 2 ^ 63 then m else m - 2 ^ 64)
  /\ Int64.to_unsigned (if m <? 2 ^ 63 then m else m - 2 ^ 64) = m.
Proof.
  intros Hm. unfold Int64.wrap, Int64.to_unsigned, Int64.half_modulus,
    Int64.modulus.
  destruct (Z.ltb_spec m (2 ^ 63)).
  - rewrite !Z.mod_small by lia. lia.
  - replace (m + 2 ^ 63) with (m - 2 ^ 63 + 1 * 2 ^ 64) by lia.
    rewrite Z.mod_add by lia. rewrite (Z.mod_small (m - 2 ^ 63)) by lia.
    split; [lia|].
    replace (m - 2 ^ 64) with (m + (-1) * 2 ^ 64) by lia.
    rewrite Z.mod_add by lia. apply Z.mod_small. lia.
Qed.

(** Nine bytes: the loop reads the first eight, the guard returns. *)
Lemma deserialize_ra_nine pre x last :
  bytes pre -> is_byte x -> length pre = 7%nat ->
  deserialize_ra (pre ++ [x; last])
  = Some (Int64.wrap (le_value (pre ++ [x]))).
Proof.
  intros Hpre Hx Hlen. unfold deserialize_ra.
  destruct (pre ++ [x; last]) as [|b0 b'] eqn:E; [now destruct pre|].
  rewrite <- E. clear E b0 b'.
  assert (Hd : length (pre ++ [x; last]) = 9%nat)
    by (rewrite length_app; simpl; lia).
  rewrite Hd.
  replace (9 - 1)%nat with (length pre + 1)%nat by lia.
  rewrite ra_loop_app. change 0 with (Z.of_nat 0) at 2 3.
  rewrite ra_loop_exact by (assumption || simpl; lia).
  cbn [fst deserialize_ra_loop hd tail].
  change (Int64.size <? 9)%nat with true. cbv iota. f_equal.
  rewrite Hlen. change (256 ^ Z.of_nat 0) with 1.
  change (8 * (Z.of_nat 0 + Z.of_nat 7)) with 56.
  pose proof (le_value_bound pre Hpre) as Hv.
  rewrite Hlen in Hv. change (256 ^ Z.of_nat 7) with (2 ^ 56) in Hv.
  rewrite lor_shl_top; [|lia|exact Hx].
  rewrite le_value_snoc, Hlen. change (256 ^ Z.of_nat 7) with (2 ^ 56).
  f_equal. lia.
Qed.

Lemma nine_bytes_split b :
  length b = S Int64.size ->
  exists pre x last, b = pre ++ [x; last] /\ length pre = 7%nat.
Proof.
  unfold Int64.size. intros Hlen.
  destruct (buffer_end_cases b) as [-> | [[x ->] | (pre & x & last & ->)]];
    try discriminate Hlen.
  exists pre, x, last. split; [reflexivity|].
  rewrite length_app in Hlen. simpl in Hlen. lia.
Qed.

End RandomAccessNine.

(** C7 (as the spec states it): on a buffer longer than [sizeof(T)] the
    random access [deserialize] would return the unsigned magnitude of the
    first [d - 1] bytes, those past the width adding nothing.  What it
    returns is an [int64_t]: on the nine bytes [0, ..., 0, 0x80, 0x00] the
    magnitude of the first eight is [2^63] and the result is [- 2^63].  And
    from ten bytes on the loop shifts by 64 bits and more: on
    [1, 0, ..., 0, 5, 0] the ninth byte lands on the first one and the
    result is 5, where the magnitude of the bytes within the width is 1. *)
Lemma C7_ra_result_is_not_the_magnitude :
  (let b := [0; 0; 0; 0; 0; 0; 0; 0x80; 0x00] in
   bytes b /\ (Int64.size < length b)%nat
   /\ le_value (take (length b - 1) b) = 2 ^ 63
   /\ deserialize_ra b = Some (- 2 ^ 63))
  /\ (let b := [1; 0; 0; 0; 0; 0; 0; 0; 5; 0] in
      bytes b /\ (Int64.size < length b)%nat
      /\ le_value (take Int64.size b) = 1
      /\ deserialize_ra b = Some 5)
  /\ ~ (forall b,
           bytes b -> (Int64.size < length b)%nat ->
           deserialize_ra b = Some (le_value (take Int64.size b))).
Proof.
  assert (Hb : bytes [0; 0; 0; 0; 0; 0; 0; 0x80; 0x00])
    by (repeat constructor; unfold is_byte; lia).
  assert (Hlen : (Int64.size < length [0; 0; 0; 0; 0; 0; 0; 0x80; 0x00])%nat)
    by (unfold Int64.size; simpl; lia).
  assert (Hra : deserialize_ra [0; 0; 0; 0; 0; 0; 0; 0x80; 0x00]
                = Some (- 2 ^ 63)) by (vm_compute; reflexivity).
  split; [|split].
  - cbv zeta. split; [exact Hb|]. split; [exact Hlen|].
    split; [reflexivity | exact Hra].
  - cbv zeta. split; [repeat constructor; unfold is_byte; lia|].
    split; [unfold Int64.size; simpl; lia|].
    split; [reflexivity | vm_compute; reflexivity].
  - intros Hall. specialize (Hall _ Hb Hlen).
    rewrite Hra in Hall. vm_compute in Hall. discriminate Hall.
Qed.

(** C7 (amended): when the random access [deserialize] is given a buffer of
    [sizeof(T) + 1 = 9] bytes, it returns the [int64_t] whose 64 bits are
    those of the little-endian number [m] of the first eight bytes, that is
    [m] itself below [2^63] and [m - 2^64] from there on.  The last byte is
    not read: no sign adjustment is made, and any other last byte gives the
    same result. *)
Theorem C7_deserialize_ra_nine_bytes (b : list Z) :
  bytes b -> length b = S Int64.size ->
  let m := le_value (take Int64.size b) in
  let result := if m <? 2 ^ 63 then m else m - 2 ^ 64 in
  deserialize_ra b = Some result
  /\ Int64.in_range result
  /\ Int64.to_unsigned result = m
  /\ forall x, deserialize_ra (take Int64.size b ++ [x]) = Some result.
Proof.
  intros Hb Hlen. cbv zeta.
  destruct (nine_bytes_split b Hlen) as (pre & x & last & -> & Hpre).
  replace (pre ++ [x; last]) with ((pre ++ [x]) ++ [last]) in *
    by now rewrite <- app_assoc.
  apply bytes_snoc in Hb as [Hb _].
  assert (Htake : take Int64.size ((pre ++ [x]) ++ [last]) = pre ++ [x]).
  { apply take_app_length'. rewrite length_app. simpl. unfold Int64.size.
    lia. }
  rewrite Htake.
  pose proof (le_value_bound _ Hb) as Hv.
  rewrite length_app, Hpre in Hv. cbn [length Nat.add] in Hv.
  change (256 ^ Z.of_nat 8) with (2 ^ 64) in Hv.
  destruct (wrap_of_unsigned _ Hv) as [Hw Hu].
  apply bytes_snoc in Hb as [Hb Hx].
  assert (Hra : forall y,
             deserialize_ra ((pre ++ [x]) ++ [y])
             = Some (if le_value (pre ++ [x]) <? 2 ^ 63
                     then le_value (pre ++ [x])
                     else le_value (pre ++ [x]) - 2 ^ 64)).
  { intros y. rewrite <- Hw, <- app_assoc.
    now apply deserialize_ra_nine. }
  split; [apply Hra|]. split; [|split; [exact Hu | apply Hra]].
  rewrite <- Hw. apply wrap_range.
Qed.

Lemma C7_deserialize_ra_nine_bytes_witness :
  deserialize_ra [0; 0; 0; 0; 0; 0; 0; 0x80; 0x80] = Some (- 2 ^ 63).
Proof.
  apply (C7_deserialize_ra_nine_bytes [0; 0; 0; 0; 0; 0; 0; 0x80; 0x80]).
  - repeat constructor; unfold is_byte; lia.
  - reflexivity.
Defined.

(** ** The minimal rewriter *)

Section Rewriter.

Implicit Types (data pre q rest : list Z) (x y t last : Z) (i k : nat).

Lemma MinimallyEncode_nil : MinimallyEncode [] = (false, []).
Proof. reflexivity. Qed.

Lemma MinimallyEncode_single x :
  MinimallyEncode [x]
  = if negb (Z.land x 0x7f =? 0) then (false, [x]) else (true, []).
Proof. reflexivity. Qed.

Lemma MinimallyEncode_two pre y x :
  MinimallyEncode (pre ++ [y; x])
  = if negb (Z.land x 0x7f =? 0) then (false, pre ++ [y; x])
    else if negb (Z.land y 0x80 =? 0) then (false, pre ++ [y; x])
         else MinimallyEncode_loop (S (length pre)) x (pre ++ [y; x]).
Proof.
  unfold MinimallyEncode. rewrite back_snoc2, before_back_snoc.
  assert (Hlen : length (pre ++ [y; x]) = S (S (length pre)))
    by (rewrite length_app; simpl; lia).
  rewrite Hlen. cbn [Nat.eqb Nat.sub]. reflexivity.
Qed.

(** The loop never returns false, and it returns fewer bytes than it was
    given when the byte before the last one has its bit 0x80 clear. *)
Lemma MinimallyEncode_loop_shrinks i i0 last data :
  Z.land (data !!! (i0 - 1)%nat) 0x80 = 0 -> (i <= i0)%nat ->
  fst (MinimallyEncode_loop i last data) = true
  /\ (length (snd (MinimallyEncode_loop i last data)) <= i0)%nat.
Proof.
  intros Hclear. induction i as [|j IH]; intros Hi.
  - simpl. split; [reflexivity | lia].
  - cbn [MinimallyEncode_loop].
    destruct (Z.eqb_spec (data !!! j) 0) as [_ | Hne]; cbn [negb].
    + apply IH. lia.
    + destruct (Z.eqb_spec (Z.land (data !!! j) 128) 0) as [_ | Hset];
        cbn [negb fst snd]; rewrite length_resize.
      * split; [reflexivity | lia].
      * split; [reflexivity|].
        destruct (Nat.eq_dec j (i0 - 1)%nat) as [-> | Hj];
          [contradiction | lia].
Qed.

(** Below a run of zero bytes the loop finds nothing. *)
Lemma MinimallyEncode_loop_zeros k last rest :
  MinimallyEncode_loop k last (replicate k 0 ++ rest) = (true, []).
Proof.
  revert rest. induction k as [|k IH]; intros rest; [reflexivity|].
  cbn [MinimallyEncode_loop].
  rewrite lookup_total_app_l by (rewrite length_replicate; lia).
  rewrite lookup_total_replicate_2 by lia.
  cbn [Z.eqb negb].
  rewrite replicate_S_end, <- app_assoc. apply IH.
Qed.

Lemma lookup_at_length q t rest : (q ++ t :: rest) !!! length q = t.
Proof.
  replace (length q) with (length q + 0)%nat by lia.
  apply list_lookup_total_middle. lia.
Qed.

(** [data[i - 1] |= last; data.resize(i)] *)
Lemma store_at_and_resize q t rest x :
  resize (S (length q)) 0 (<[length q := x]> (q ++ t :: rest)) = q ++ [x].
Proof.
  induction q as [|a q IH]; [cbn; now rewrite resize_0|].
  cbn [length app]. cbn [insert list_insert resize].
  f_equal. apply IH.
Qed.

(** [data[i++] = last; data.resize(i)] *)
Lemma store_after_and_resize q t r rest x :
  resize (S (S (length q))) 0 (<[S (length q) := x]> (q ++ t :: r :: rest))
  = q ++ [t; x].
Proof.
  induction q as [|a q IH]; [cbn; now rewrite resize_0|].
  cbn [length app]. cbn [insert list_insert resize].
  f_equal. apply IH.
Qed.

(** The loop stops at the topmost byte [t] that is not zero. *)
Lemma MinimallyEncode_loop_found q t k last r rest :
  t <> 0 ->
  MinimallyEncode_loop (S (length q) + k) last
    (q ++ [t] ++ replicate k 0 ++ r :: rest)
  = (true, if negb (Z.land t 0x80 =? 0) then q ++ [t; last]
           else q ++ [Z.lor t last]).
Proof.
  intros Ht. revert r rest. induction k as [|k IH]; intros r rest.
  - rewrite Nat.add_0_r. cbn [replicate app MinimallyEncode_loop].
    rewrite lookup_at_length.
    destruct (Z.eqb_spec t 0) as [|_]; [contradiction|]. cbn [negb].
    destruct (negb (Z.land t 128 =? 0)); f_equal.
    + apply store_after_and_resize.
    + apply store_at_and_resize.
  - replace (S (length q) + S k)%nat with (S (S (length q) + k)) by lia.
    cbn [MinimallyEncode_loop].
    assert (Hzero : (q ++ [t] ++ replicate (S k) 0 ++ r :: rest)
                    !!! (S (length q) + k)%nat = 0).
    { rewrite app_assoc.
      replace (S (length q) + k)%nat with (length (q ++ [t]) + k)%nat
        by (rewrite length_app; simpl; lia).
      rewrite lookup_total_app_r by lia.
      replace (length (q ++ [t]) + k - length (q ++ [t]))%nat with k by lia.
      rewrite lookup_total_app_l by (rewrite length_replicate; lia).
      apply lookup_total_replicate_2. lia. }
    rewrite Hzero. cbn [Z.eqb negb].
    rewrite replicate_S_end, <- (app_assoc (replicate k 0)).
    apply IH.
Qed.

(** A buffer is all zeros, or has a topmost byte that is not zero. *)
Lemma topmost_nonzero data :
  data = replicate (length data) 0
  \/ exists q t k, t <> 0 /\ data = q ++ [t] ++ replicate k 0.
Proof.
  induction data as [|x data IH] using rev_ind; [now left|].
  destruct (Z.eq_dec x 0) as [-> | Hx].
  - destruct IH as [IH | (q & t & k & Ht & ->)].
    + left. rewrite length_app. simpl.
      rewrite Nat.add_1_r, replicate_S_end. now rewrite <- IH.
    + right. exists q, t, (S k). split; [exact Ht|].
      now rewrite replicate_S_end, <- !app_assoc.
  - right. exists data, x, 0%nat. split; [exact Hx|]. reflexivity.
Qed.

End Rewriter.

Section RewriterFlag.

Implicit Types (data pre : list Z) (x y : Z).

(** The rewriter either hands the buffer back and reports false, which is
    the case of the buffers described by [left_as_given], or it reports
    true and hands back a shorter buffer. *)
Lemma MinimallyEncode_cases data :
  (MinimallyEncode data = (false, data) /\ left_as_given data)
  \/ (fst (MinimallyEncode data) = true
      /\ (length (snd (MinimallyEncode data)) < length data)%nat
      /\ ~ left_as_given data).
Proof.
  unfold left_as_given.
  destruct (buffer_end_cases data) as [-> | [[x ->] | (pre & y & x & ->)]].
  - left. split; [reflexivity | now left].
  - rewrite MinimallyEncode_single.
    destruct (Z.eqb_spec (Z.land x 127) 0) as [Hx | Hx]; cbn [negb].
    + right. repeat split; [simpl; lia|].
      intros [H | [(q & x' & H & Hx') | (q & y' & x' & H & _)]].
      * discriminate H.
      * destruct (snoc_eq_inv [] q x x' H) as [_ <-]. contradiction.
      * destruct q as [|? [|? ?]]; discriminate H.
    + left. split; [reflexivity|]. right. left. now exists [], x.
  - rewrite MinimallyEncode_two.
    destruct (Z.eqb_spec (Z.land x 127) 0) as [Hx | Hx]; cbn [negb].
    + destruct (Z.eqb_spec (Z.land y 128) 0) as [Hy | Hy]; cbn [negb].
      * right.
        destruct (MinimallyEncode_loop_shrinks (S (length pre))
                    (S (length pre)) x (pre ++ [y; x])) as [Hflag Hlen].
        { cbn [Nat.sub]. rewrite Nat.sub_0_r, lookup_at_length. exact Hy. }
        { lia. }
        split; [exact Hflag|]. split.
        { rewrite length_app. cbn [length]. lia. }
        intros [H | [(q & x' & H & Hx') | (q & y' & x' & H & _ & Hy')]].
        -- now destruct pre.
        -- replace (pre ++ [y; x]) with ((pre ++ [y]) ++ [x]) in H
             by now rewrite <- app_assoc.
           destruct (snoc_eq_inv _ _ _ _ H) as [_ <-]. contradiction.
        -- replace (pre ++ [y; x]) with ((pre ++ [y]) ++ [x]) in H
             by now rewrite <- app_assoc.
           replace (q ++ [y'; x']) with ((q ++ [y']) ++ [x']) in H
             by now rewrite <- app_assoc.
           destruct (snoc_eq_inv _ _ _ _ H) as [H' _].
           destruct (snoc_eq_inv _ _ _ _ H') as [_ <-]. contradiction.
      * left. split; [reflexivity|]. right. right. now exists pre, y, x.
    + left. split; [reflexivity|]. right. left.
      exists (pre ++ [y]), x. now rewrite <- app_assoc.
Qed.

End RewriterFlag.

(** C8. On every buffer, [MinimallyEncode] returns true if and only if the
    buffer it leaves differs from the one it was given.  It returns false
    exactly on the empty buffer, on a buffer whose last byte has one of its
    low seven bits set, and on a buffer whose last byte is a sign byte made
    necessary by the set bit 0x80 of the byte before it; the buffer is then
    left byte for byte as it was. *)
Theorem C8_MinimallyEncode_reports_change (data : list Z) :
  (fst (MinimallyEncode data) = true <-> snd (MinimallyEncode data) <> data)
  /\ (fst (MinimallyEncode data) = false -> snd (MinimallyEncode data) = data)
  /\ (fst (MinimallyEncode data) = false <-> left_as_given data).
Proof.
  destruct (MinimallyEncode_cases data)
    as [[Heq Hkept] | (Hflag & Hlen & Hnot)].
  - rewrite Heq. cbn [fst snd]. repeat split; try easy.
  - rewrite Hflag. repeat split; try easy.
    intros _ Heq. rewrite Heq in Hlen. lia.
Qed.

(** ** The rewriter and the encoder agree *)

Section RewriterCanonical.

Implicit Types (data pre q : list Z) (x y t : Z) (k : nat) (neg : bool).

Lemma MinimallyEncode_kept data :
  left_as_given data -> MinimallyEncode data = (false, data).
Proof.
  intros Hkept.
  destruct (MinimallyEncode_cases data) as [[Heq _] | (_ & _ & Hnot)];
    [exact Heq | contradiction].
Qed.

Lemma MinimallyEncode_all_zero k x :
  Z.land x 0x7f = 0 -> MinimallyEncode (replicate k 0 ++ [x]) = (true, []).
Proof.
  intros Hx. destruct k as [|k].
  - cbn [replicate app]. rewrite MinimallyEncode_single, Hx. reflexivity.
  - rewrite replicate_S_end, <- app_assoc. cbn [app].
    rewrite MinimallyEncode_two, Hx. cbn [Z.land Z.eqb negb].
    rewrite length_replicate.
    replace (replicate k 0 ++ [0; x]) with (replicate (S k) 0 ++ [x])
      by (rewrite replicate_S_end, <- app_assoc; reflexivity).
    apply MinimallyEncode_loop_zeros.
Qed.

Lemma MinimallyEncode_topmost q t k x :
  t <> 0 -> Z.land x 0x7f = 0 ->
  snd (MinimallyEncode (q ++ [t] ++ replicate k 0 ++ [x]))
  = if negb (Z.land t 0x80 =? 0) then q ++ [t; x] else q ++ [Z.lor t x].
Proof.
  intros Ht Hx. destruct k as [|k].
  - cbn [replicate app]. rewrite MinimallyEncode_two, Hx. cbn [Z.eqb negb].
    destruct (negb (Z.land t 128 =? 0)) eqn:Hset; [reflexivity|].
    pose proof (MinimallyEncode_loop_found q t 0 x x [] Ht) as Hloop.
    rewrite Nat.add_0_r in Hloop. cbn [replicate app] in Hloop.
    rewrite Hloop, Hset. reflexivity.
  - replace (q ++ [t] ++ replicate (S k) 0 ++ [x])
      with ((q ++ [t] ++ replicate k 0) ++ [0; x])
      by (rewrite replicate_S_end, <- !app_assoc; reflexivity).
    rewrite MinimallyEncode_two, Hx. cbn [Z.land Z.eqb negb].
    replace ((q ++ [t] ++ replicate k 0) ++ [0; x])
      with (q ++ [t] ++ replicate (S k) 0 ++ [x])
      by (rewrite replicate_S_end, <- !app_assoc; reflexivity).
    replace (S (length (q ++ [t] ++ replicate k 0)))
      with (S (length q) + S k)%nat
      by (rewrite !length_app, length_replicate; simpl; lia).
    rewrite MinimallyEncode_loop_found by exact Ht. reflexivity.
Qed.

(** [serialize] on a number given by its sign and its digits. *)
Lemma serialize_signed neg q t :
  bytes q -> 0 < t < 256 -> le_value (q ++ [t]) < 2 ^ 63 ->
  serialize (if neg then - le_value (q ++ [t]) else le_value (q ++ [t])) []
  = canonical neg q t.
Proof.
  intros Hq Ht Hlt.
  pose proof (le_value_snoc_bound q t 1 256 Hq ltac:(lia) ltac:(lia)) as Hv.
  pose proof (pow256_pos (length q)) as Hpos.
  set (m := le_value (q ++ [t])) in *.
  assert (Hlen : (length q < Int64.size)%nat).
  { apply (digits_length q t 8 Hq); [lia|].
    change (256 ^ Z.of_nat 8) with (2 ^ 64). subst m. lia. }
  unfold serialize.
  assert (Hrange : Int64.in_range (if neg then - m else m))
    by (unfold Int64.in_range, Int64.half_modulus; destruct neg; lia).
  rewrite abs_spec by exact Hrange.
  destruct (Z.eqb_spec (if neg then - m else m) 0) as [H0 | _];
    [destruct neg; lia|].
  replace (Z.abs (if neg then - m else m)) with m by (destruct neg; lia).
  replace ((if neg then - m else m) <? 0) with neg
    by (destruct neg; [symmetry; apply Z.ltb_lt | symmetry; apply Z.ltb_ge];
        lia).
  subst m. now rewrite serialize_loop_digits.
Qed.

(** A byte whose low seven bits are clear is 0 or 0x80. *)
Lemma sign_byte x :
  is_byte x -> Z.land x 0x7f = 0 -> x = if 128 <=? x then 128 else 0.
Proof.
  intros [Hx0 Hx1] H. rewrite byte_land_7f in H by (split; assumption).
  destruct (Z.leb_spec 128 x).
  - replace x with (x - 128 + 1 * 128) in H by lia.
    rewrite Z.mod_add, Z.mod_small in H; lia.
  - rewrite Z.mod_small in H; lia.
Qed.

Lemma MinimallyEncode_canonical pre x :
  bytes (pre ++ [x]) -> (length (pre ++ [x]) <= Int64.size)%nat ->
  snd (MinimallyEncode (pre ++ [x])) = serialize (sm_value pre x) [].
Proof.
  intros Hb Hlen. apply bytes_snoc in Hb as [Hpre Hx].
  rewrite length_app in Hlen. simpl in Hlen. unfold Int64.size in Hlen.
  destruct (Z.eq_dec (Z.land x 0x7f) 0) as [Hzero | Hnz].
  - (* the last byte is a bare sign byte *)
    pose proof (sign_byte x Hx Hzero) as Hsign.
    assert (Hval : sm_value pre x
                   = if 128 <=? x then - le_value pre else le_value pre).
    { unfold sm_value. rewrite !le_value_snoc.
      destruct (Z.leb_spec 128 x), (Z.ltb_spec x 128); lia. }
    rewrite Hval.
    destruct (topmost_nonzero pre) as [Hall | (q & t & k & Ht & ->)].
    + rewrite Hall at 1. rewrite MinimallyEncode_all_zero by exact Hzero.
      rewrite Hall, le_value_zeros. now destruct (128 <=? x).
    + rewrite <- !app_assoc.
      rewrite MinimallyEncode_topmost by assumption.
      apply bytes_app in Hpre as [Hq Hpre].
      apply (Forall_cons is_byte t) in Hpre as [[Ht0 Ht1] _].
      rewrite app_assoc, le_value_app_zeros.
      rewrite !length_app, length_replicate in Hlen. simpl in Hlen.
      assert (Hlt : le_value (q ++ [t]) < 2 ^ 63).
      { pose proof (le_value_snoc_bound q t 0 256 Hq ltac:(lia)
                      ltac:(lia)) as Hv.
        pose proof (pow256_mono (length q) 6 ltac:(lia)) as Hm.
        change (256 ^ Z.of_nat 6) with (2 ^ 48) in Hm. lia. }
      rewrite serialize_signed by (assumption || lia).
      unfold canonical. rewrite sign_bit by (unfold is_byte; lia).
      destruct (Z.leb_spec 128 t), (Z.ltb_spec t 128); try lia.
      * now rewrite Hsign at 1.
      * rewrite Hsign at 1. destruct (128 <=? x).
        -- rewrite byte_lor_80, Z.mod_small by (unfold is_byte; lia).
           reflexivity.
        -- now rewrite Z.lor_0_r.
  - (* the last byte carries magnitude bits *)
    rewrite MinimallyEncode_kept
      by (right; left; exists pre, x; split; [reflexivity | exact Hnz]).
    cbn [snd]. unfold sm_value. destruct Hx as [Hx0 Hx1].
    rewrite byte_land_7f in Hnz by (split; assumption).
    destruct (Z.ltb_spec x 128) as [Hsmall | Hbig].
    + rewrite Z.mod_small in Hnz by lia.
      pose proof (magnitude_bound pre x Hpre ltac:(lia) ltac:(lia)).
      rewrite (serialize_signed false) by (assumption || lia).
      unfold canonical. destruct (Z.ltb_spec x 128); [reflexivity | lia].
    + replace x with (x - 128 + 1 * 128) in Hnz by lia.
      rewrite Z.mod_add, Z.mod_small in Hnz by lia.
      pose proof (magnitude_bound pre (x - 128) Hpre ltac:(lia) ltac:(lia)).
      rewrite (serialize_signed true) by (assumption || lia).
      unfold canonical. destruct (Z.ltb_spec (x - 128) 128); [|lia].
      now replace (x - 128 + 128) with x by lia.
Qed.

(** What the checker accepts, the rewriter leaves as it is. *)
Lemma IsMinimallyEncoded_kept data nMaxNumSize :
  IsMinimallyEncoded data nMaxNumSize = true ->
  MinimallyEncode data = (false, data).
Proof.
  intros Hmin. apply MinimallyEncode_kept. unfold left_as_given.
  destruct (buffer_end_cases data) as [-> | [[x ->] | (pre & y & x & ->)]].
  - now left.
  - rewrite IsMinimallyEncoded_single in Hmin.
    apply andb_true_iff in Hmin as [_ Hx].
    apply negb_true_iff, Z.eqb_neq in Hx.
    right. left. now exists [], x.
  - rewrite IsMinimallyEncoded_two in Hmin.
    apply andb_true_iff in Hmin as [_ Hxy].
    destruct (Z.eqb_spec (Z.land x 127) 0) as [Hx | Hx].
    + cbn [negb orb] in Hxy. apply negb_true_iff, Z.eqb_neq in Hxy.
      right. right. now exists pre, y, x.
    + right. left. exists (pre ++ [y]), x. now rewrite <- app_assoc.
Qed.

End RewriterCanonical.

(** C5. For every buffer [b] of at least one and at most [sizeof(int64_t)]
    = 8 bytes, the buffer [MinimallyEncode] leaves is the one [serialize]
    writes for the integer [deserialize] reads from [b]: the rewriter
    produces the canonical form of the encoder. *)
Theorem C5_MinimallyEncode_is_serialize_of_deserialize (b : list Z) :
  bytes b -> b <> [] -> (length b <= Int64.size)%nat ->
  exists v,
    deserialize_bidi b = Some v
    /\ snd (MinimallyEncode b) = serialize v [].
Proof.
  intros Hb Hne Hlen.
  destruct b as [|x pre _] using rev_ind; [contradiction|].
  exists (sm_value pre x). split.
  - now apply deserialize_bidi_snoc.
  - now apply MinimallyEncode_canonical.
Qed.

Lemma C5_MinimallyEncode_is_serialize_of_deserialize_witness :
  exists v,
    deserialize_bidi [0x80; 0; 0x80] = Some v
    /\ snd (MinimallyEncode [0x80; 0; 0x80]) = serialize v [].
Proof.
  apply (C5_MinimallyEncode_is_serialize_of_deserialize [0x80; 0; 0x80]).
  - repeat constructor; unfold is_byte; lia.
  - discriminate.
  - unfold Int64.size. simpl. lia.
Defined.

(** C2 (as the spec states it): every buffer the checker accepts under a
    generous [nMaxNumSize] would be reproduced by encoding what it decodes
    to.  The nine bytes [0, ..., 0, 0x80, 0x00] are the minimal encoding of
    [2^63], which [int64_t] does not hold: the checker accepts them, they
    decode to [-2^63], and that encodes with the sign byte 0x80. *)
Lemma C2_nine_bytes_not_reproduced :
  let b := [0; 0; 0; 0; 0; 0; 0; 0x80; 0x00] in
  bytes b
  /\ IsMinimallyEncoded b 1000 = true
  /\ deserialize_bidi b = Some (- 2 ^ 63)
  /\ deserialize_ra b = Some (- 2 ^ 63)
  /\ serialize (- 2 ^ 63) [] = [0; 0; 0; 0; 0; 0; 0; 0x80; 0x80]
  /\ ~ (exists v, deserialize_bidi b = Some v /\ serialize v [] = b).
Proof.
  cbv zeta.
  assert (Hdec : deserialize_bidi [0; 0; 0; 0; 0; 0; 0; 0x80; 0x00]
                 = Some (- 2 ^ 63))
    by (vm_compute; reflexivity).
  split; [repeat constructor; unfold is_byte; lia|].
  split; [reflexivity|].
  split; [exact Hdec|].
  split; [vm_compute; reflexivity|].
  split; [vm_compute; reflexivity|].
  intros (v & Hv & Hs). rewrite Hdec in Hv. injection Hv as <-.
  vm_compute in Hs. discriminate Hs.
Qed.

(** C2 (amended): for every buffer [b] of at most [sizeof(int64_t)] = 8
    bytes that [IsMinimallyEncoded] accepts, encoding the integer that [b]
    decodes to writes [b] again, the empty buffer standing for the
    integer 0. *)
Theorem C2_serialize_deserialize_minimal (b : list Z) (nMaxNumSize : nat) :
  bytes b -> IsMinimallyEncoded b nMaxNumSize = true ->
  (length b <= Int64.size)%nat ->
  (b = [] -> serialize 0 [] = b)
  /\ (b <> [] ->
      exists v, deserialize_bidi b = Some v /\ serialize v [] = b).
Proof.
  intros Hb Hmin Hlen. split; [now intros ->|].
  intros Hne. destruct b as [|x pre _] using rev_ind; [contradiction|].
  exists (sm_value pre x). split.
  - now apply deserialize_bidi_snoc.
  - rewrite <- MinimallyEncode_canonical by assumption.
    now rewrite (IsMinimallyEncoded_kept _ _ Hmin).
Qed.

Lemma C2_serialize_deserialize_minimal_witness :
  exists v,
    deserialize_bidi [0xff; 0x80] = Some v /\ serialize v [] = [0xff; 0x80].
Proof.
  apply (C2_serialize_deserialize_minimal [0xff; 0x80] 4).
  - repeat constructor; unfold is_byte; lia.
  - reflexivity.
  - unfold Int64.size. simpl. lia.
  - discriminate.
Defined.

(** * Further properties of the codec *)

(** ** The dispatching decoder *)

Section Dispatch.

Implicit Types (category : iterator_category) (pre b : list Z) (x : Z).

Lemma deserialize_snoc category pre x :
  bytes (pre ++ [x]) -> (length (pre ++ [x]) <= Int64.size)%nat ->
  deserialize category (pre ++ [x]) = Some (sm_value pre x).
Proof.
  intros Hb Hlen. unfold deserialize.
  destruct (pre ++ [x]) as [|y l] eqn:E; [now destruct pre|].
  rewrite <- E in *.
  destruct category.
  - now apply deserialize_fwd_snoc.
  - now apply deserialize_bidi_snoc.
  - now apply deserialize_ra_snoc.
Qed.

Lemma deserialize_nil category : deserialize category [] = None.
Proof. reflexivity. Qed.

Lemma deserialize_some_nonempty category b v :
  deserialize category b = Some v -> b <> [].
Proof. intros H ->. discriminate H. Qed.

(** The value of a buffer of at most eight bytes is away from the least
    [int64_t]. *)
Lemma sm_value_bound pre x :
  bytes (pre ++ [x]) -> (length (pre ++ [x]) <= Int64.size)%nat ->
  - 2 ^ (8 * Z.of_nat (length (pre ++ [x])) - 1) < sm_value pre x
  < 2 ^ (8 * Z.of_nat (length (pre ++ [x])) - 1).
Proof.
  intros Hb Hlen. apply bytes_snoc in Hb as [Hpre [Hx0 Hx1]].
  rewrite length_app in *. cbn [length] in *.
  replace (8 * Z.of_nat (length pre + 1) - 1)
    with (7 + 8 * Z.of_nat (length pre)) by lia.
  rewrite Z.pow_add_r, <- pow256 by lia. change (2 ^ 7) with 128.
  unfold sm_value. destruct (Z.ltb_spec x 128).
  - pose proof (le_value_snoc_bound pre x 0 128 Hpre ltac:(lia) ltac:(lia)).
    lia.
  - pose proof (le_value_snoc_bound pre (x - 128) 0 128 Hpre ltac:(lia)
                  ltac:(lia)).
    lia.
Qed.

Lemma sm_value_in_range pre x :
  bytes (pre ++ [x]) -> (length (pre ++ [x]) <= Int64.size)%nat ->
  Int64.in_range (sm_value pre x) /\ sm_value pre x <> - 2 ^ 63.
Proof.
  intros Hb Hlen. pose proof (sm_value_bound pre x Hb Hlen) as Hv.
  assert (Hpow : 2 ^ (8 * Z.of_nat (length (pre ++ [x])) - 1) <= 2 ^ 63).
  { apply Z.pow_le_mono_r; [lia|]. unfold Int64.size in Hlen. lia. }
  unfold Int64.in_range, Int64.half_modulus. lia.
Qed.

End Dispatch.

(** X1. [bsv::abs] returns the absolute value of every [int64_t], as a
    [uint64_t] that is at most [2^63]; the bound is reached by the least
    [int64_t] only, whose negation does not exist as an [int64_t]. *)
Theorem X1_abs_is_absolute_value (value : Z) :
  Int64.in_range value ->
  abs value = Z.abs value
  /\ 0 <= abs value <= 2 ^ 63
  /\ (abs value = 2 ^ 63 <-> value = - 2 ^ 63)
  /\ (abs value = 0 <-> value = 0).
Proof.
  intros Hrange. rewrite abs_spec by exact Hrange.
  unfold Int64.in_range, Int64.half_modulus in Hrange. lia.
Qed.

Lemma X1_abs_is_absolute_value_witness : abs (- 2 ^ 63) = Z.abs (- 2 ^ 63).
Proof.
  assert (H : Int64.in_range (- 2 ^ 63))
    by (unfold Int64.in_range, Int64.half_modulus; lia).
  exact (proj1 (X1_abs_is_absolute_value (- 2 ^ 63) H)).
Defined.

(** ** More on the encoder *)

Section EncoderMore.

Implicit Types (pre o : list Z) (t m n : Z) (neg : bool) (fuel : nat).

(** The loop only ever appends to the sink. *)
Lemma serialize_loop_sink fuel neg m o :
  serialize_loop fuel neg m o = o ++ serialize_loop fuel neg m [].
Proof.
  revert m o. induction fuel as [|fuel IH]; intros m o.
  - simpl. now rewrite app_nil_r.
  - cbn [serialize_loop]. destruct (m =? 0); [now rewrite app_nil_r|].
    cbv zeta. rewrite IH. symmetry. rewrite IH. cbn [app].
    rewrite app_assoc. f_equal.
    destruct (negb (Z.shiftr m 8 =? 0)); [reflexivity|].
    destruct (negb (Z.land (Z.land m 255) 128 =? 0)); [|reflexivity].
    now rewrite <- app_assoc.
Qed.

Lemma serialize_sink n o : serialize n o = o ++ serialize n [].
Proof.
  unfold serialize. destruct (n =? 0); [now rewrite app_nil_r|].
  apply serialize_loop_sink.
Qed.

Lemma canonical_bytes neg pre t :
  bytes pre -> 0 < t < 256 -> bytes (canonical neg pre t).
Proof.
  intros Hpre Ht. unfold canonical. apply bytes_app. split; [exact Hpre|].
  destruct (Z.ltb_spec t 128), neg;
    repeat constructor; unfold is_byte; lia.
Qed.

Lemma serialize_nonempty n :
  Int64.in_range n -> n <> 0 -> serialize n [] <> [].
Proof.
  intros Hrange Hne.
  destruct (serialize_canonical n [] Hrange Hne)
    as (pre & t & _ & _ & _ & _ & ->).
  unfold canonical. cbn [app].
  destruct pre; destruct (t <? 128); discriminate.
Qed.

(** Reading back what was written, the least [int64_t] included. *)
Lemma deserialize_serialize category n :
  Int64.in_range n -> n <> 0 ->
  deserialize category (serialize n []) = Some n.
Proof.
  intros Hrange Hne. destruct (Z.eq_dec n (- 2 ^ 63)) as [-> | Hmin].
  - destruct category; vm_compute; reflexivity.
  - now apply (decode_serialize (deserialize category)
                 (deserialize_snoc category)).
Qed.

(** The length of the canonical form against the size of the magnitude. *)
Lemma canonical_length_bounds neg pre t :
  bytes pre -> 0 < t < 256 ->
  let len := Z.of_nat (length (canonical neg pre t)) in
  2 ^ (8 * len - 9) <= le_value (pre ++ [t]) < 2 ^ (8 * len - 1).
Proof.
  intros Hpre Ht. cbv zeta. rewrite length_canonical.
  pose proof (pow256_pos (length pre)) as Hpos.
  destruct (Z.ltb_spec t 128) as [Hsmall | Hbig].
  - pose proof (le_value_snoc_bound pre t 1 128 Hpre ltac:(lia) ltac:(lia))
      as Hv.
    replace (8 * Z.of_nat (length pre + 1) - 1)
      with (7 + 8 * Z.of_nat (length pre)) by lia.
    rewrite Z.pow_add_r, <- pow256 by lia. change (2 ^ 7) with 128.
    split; [|lia].
    apply Z.le_trans with (256 ^ Z.of_nat (length pre)); [|lia].
    rewrite pow256. apply Z.pow_le_mono_r; lia.
  - pose proof (le_value_snoc_bound pre t 128 256 Hpre ltac:(lia) ltac:(lia))
      as Hv.
    replace (8 * Z.of_nat (length pre + 2) - 9)
      with (7 + 8 * Z.of_nat (length pre)) by lia.
    replace (8 * Z.of_nat (length pre + 2) - 1)
      with (15 + 8 * Z.of_nat (length pre)) by lia.
    rewrite !Z.pow_add_r, <- pow256 by lia.
    change (2 ^ 7) with 128. change (2 ^ 15) with 32768. lia.
Qed.

(** A byte with its bit 0x80 flipped. *)
Lemma byte_lxor_80 x :
  is_byte x -> Z.lxor x 0x80 = if x <? 128 then x + 128 else x - 128.
Proof.
  intros Hx. apply Z.eqb_eq.
  exact (byte_check
           (fun x => Z.lxor x 0x80 =? if x <? 128 then x + 128 else x - 128)
           eq_refl x Hx).
Qed.

End EncoderMore.

(** X2. [serialize] writes at most [k] bytes, [k >= 1], exactly for the
    values whose magnitude is below [2^(8k - 1)]: the numbers of [k] bytes
    are those of [8k - 1] magnitude bits and a sign. *)
Theorem X2_serialize_fits (n : Z) (k : nat) :
  Int64.in_range n -> (1 <= k)%nat ->
  (length (serialize n []) <= k)%nat <-> Z.abs n < 2 ^ (8 * Z.of_nat k - 1).
Proof.
  intros Hrange Hk.
  destruct (Z.eq_dec n 0) as [-> | Hne].
  { rewrite serialize_zero. simpl.
    split; [intros _; apply Z.pow_pos_nonneg; lia | lia]. }
  destruct (serialize_canonical n [] Hrange Hne)
    as (pre & t & Hpre & Ht & _ & Hval & ->).
  cbn [app]. rewrite Hval.
  pose proof (canonical_length_bounds (n <? 0) pre t Hpre Ht) as Hb.
  cbv zeta in Hb.
  set (len := length (canonical (n <? 0) pre t)) in *.
  split.
  - intros Hlen.
    apply Z.lt_le_trans with (2 ^ (8 * Z.of_nat len - 1)); [lia|].
    apply Z.pow_le_mono_r; lia.
  - intros Hlt.
    destruct (Nat.le_gt_cases len k) as [|Hgt]; [assumption|]. exfalso.
    assert (2 ^ (8 * Z.of_nat k - 1) <= 2 ^ (8 * Z.of_nat len - 9))
      by (apply Z.pow_le_mono_r; lia).
    lia.
Qed.

Lemma X2_serialize_fits_witness :
  (length (serialize (2 ^ 31 - 1) []) <= 4)%nat
  <-> Z.abs (2 ^ 31 - 1) < 2 ^ (8 * Z.of_nat 4 - 1).
Proof.
  apply (X2_serialize_fits (2 ^ 31 - 1) 4).
  - unfold Int64.in_range, Int64.half_modulus. lia.
  - lia.
Defined.

(** X3. [serialize] is injective on [int64_t]: two different values never
    leave the same bytes in the same sink. *)
Theorem X3_serialize_injective (n m : Z) (o : list Z) :
  Int64.in_range n -> Int64.in_range m ->
  n <> m -> serialize n o <> serialize m o.
Proof.
  intros Hn Hm Hdiff Heq. apply Hdiff.
  rewrite (serialize_sink n), (serialize_sink m) in Heq.
  apply app_inv_head in Heq.
  destruct (Z.eq_dec n 0) as [-> | Hn0].
  - destruct (Z.eq_dec m 0) as [-> | Hm0]; [reflexivity|].
    exfalso. apply (serialize_nonempty m Hm Hm0). now rewrite <- Heq.
  - destruct (Z.eq_dec m 0) as [-> | Hm0].
    + exfalso. apply (serialize_nonempty n Hn Hn0). now rewrite Heq.
    + pose proof (deserialize_serialize bidirectional_iterator_tag n Hn Hn0)
        as Hdn.
      pose proof (deserialize_serialize bidirectional_iterator_tag m Hm Hm0)
        as Hdm.
      rewrite Heq, Hdm in Hdn. now injection Hdn.
Qed.

Lemma X3_serialize_injective_witness :
  serialize 128 [] <> serialize (- 128) [].
Proof.
  apply (X3_serialize_injective 128 (- 128) []);
    unfold Int64.in_range, Int64.half_modulus; lia.
Defined.

(** X4. Opposite values are written alike up to the sign bit: for [n] other
    than zero and than the least [int64_t], what [serialize] writes for
    [- n] is what it writes for [n] with the bit 0x80 of the last byte
    flipped. *)
Theorem X4_serialize_opposite (n : Z) :
  Int64.in_range n -> n <> 0 -> n <> - 2 ^ 63 ->
  exists pre x,
    serialize n [] = pre ++ [x]
    /\ serialize (- n) [] = pre ++ [Z.lxor x 0x80].
Proof.
  intros Hrange Hne Hmin.
  destruct (serialize_canonical n [] Hrange Hne)
    as (pre & t & Hpre & Ht & _ & Hval & ->).
  cbn [app].
  unfold Int64.in_range, Int64.half_modulus in Hrange.
  assert (Hopp : - n = if negb (n <? 0) then - le_value (pre ++ [t])
                       else le_value (pre ++ [t])).
  { rewrite <- Hval. destruct (Z.ltb_spec n 0); cbn [negb]; lia. }
  rewrite Hopp, serialize_signed by (assumption || lia).
  unfold canonical. destruct (Z.ltb_spec t 128) as [Hsmall | Hbig].
  - exists pre, (if n <? 0 then t + 128 else t). split; [reflexivity|].
    do 2 f_equal. rewrite byte_lxor_80 by (destruct (n <? 0); split; lia).
    destruct (n <? 0); cbn [negb].
    + destruct (Z.ltb_spec (t + 128) 128); lia.
    + destruct (Z.ltb_spec t 128); lia.
  - exists (pre ++ [t]), (if n <? 0 then 128 else 0).
    rewrite <- !app_assoc. split; [reflexivity|].
    now destruct (n <? 0).
Qed.

Lemma X4_serialize_opposite_witness :
  exists pre x,
    serialize 255 [] = pre ++ [x]
    /\ serialize (- 255) [] = pre ++ [Z.lxor x 0x80].
Proof.
  apply (X4_serialize_opposite 255);
    unfold Int64.in_range, Int64.half_modulus; lia.
Defined.

(** X5. [serialize] only appends: what the sink held stays in front, and
    two values written one after the other are their two encodings side by
    side. *)
Theorem X5_serialize_appends (n m : Z) (o : list Z) :
  serialize n o = o ++ serialize n []
  /\ serialize m (serialize n o) = o ++ serialize n [] ++ serialize m [].
Proof.
  split; [apply serialize_sink|].
  now rewrite (serialize_sink m), (serialize_sink n), <- app_assoc.
Qed.

(** X6. Every value [serialize] writes to the sink is a byte: nothing it
    stores through the output iterator is cut by the conversion to
    [uint8_t]. *)
Theorem X6_serialize_writes_bytes (n : Z) (o : list Z) :
  Int64.in_range n -> bytes o -> bytes (serialize n o).
Proof.
  intros Hrange Ho. destruct (Z.eq_dec n 0) as [-> | Hne]; [exact Ho|].
  destruct (serialize_canonical n o Hrange Hne)
    as (pre & t & Hpre & Ht & _ & _ & ->).
  apply bytes_app. split; [exact Ho | now apply canonical_bytes].
Qed.

Lemma X6_serialize_writes_bytes_witness : bytes (serialize (- 2 ^ 63) [7]).
Proof.
  apply (X6_serialize_writes_bytes (- 2 ^ 63) [7]).
  - unfold Int64.in_range, Int64.half_modulus. lia.
  - repeat constructor; unfold is_byte; lia.
Defined.

(** ** More on the decoders *)

Section DecoderMore.

Implicit Types (category : iterator_category) (pre l : list Z) (x : Z).

Lemma le_value_zero_iff l :
  bytes l -> le_value l = 0 <-> Forall (fun y => y = 0) l.
Proof.
  induction 1 as [|y l [Hy0 Hy1] Hl IH].
  - split; [constructor | reflexivity].
  - pose proof (le_value_bound l Hl) as Hv. cbn [le_value]. split.
    + intros H0. constructor; [lia | apply IH; lia].
    + intros Hall. apply Forall_cons in Hall as [-> Hall].
      apply IH in Hall. lia.
Qed.

Lemma sm_value_flip pre x :
  is_byte x -> sm_value pre (Z.lxor x 0x80) = - sm_value pre x.
Proof.
  intros Hx. rewrite byte_lxor_80 by exact Hx. destruct Hx as [Hx0 Hx1].
  unfold sm_value. destruct (Z.ltb_spec x 128).
  - destruct (Z.ltb_spec (x + 128) 128); [lia|].
    now replace (x + 128 - 128) with x by lia.
  - destruct (Z.ltb_spec (x - 128) 128); lia.
Qed.

Lemma sm_value_zero_iff pre x :
  bytes (pre ++ [x]) ->
  sm_value pre x = 0
  <-> Forall (fun y => y = 0) pre /\ (x = 0 \/ x = 0x80).
Proof.
  intros Hb. apply bytes_snoc in Hb as [Hpre [Hx0 Hx1]].
  unfold sm_value. destruct (Z.ltb_spec x 128).
  - assert (Hb : bytes (pre ++ [x]))
      by (apply bytes_snoc; split; [assumption | split; lia]).
    rewrite (le_value_zero_iff _ Hb), Forall_app, Forall_singleton.
    intuition lia.
  - assert (Hb : bytes (pre ++ [x - 128]))
      by (apply bytes_snoc; split; [assumption | split; lia]).
    assert (Hopp : - le_value (pre ++ [x - 128]) = 0
                   <-> le_value (pre ++ [x - 128]) = 0) by lia.
    rewrite Hopp, (le_value_zero_iff _ Hb), Forall_app, Forall_singleton.
    intuition lia.
Qed.

End DecoderMore.

(** X7. Whatever the iterator category, [deserialize] reads a buffer of
    [k] bytes, [1 <= k <= sizeof(int64_t)], as an integer strictly between
    [- 2^(8k - 1)] and [2^(8k - 1)]: it never fails on such a buffer and
    never returns the least value of [k] bytes in two's complement. *)
Theorem X7_deserialize_range (category : iterator_category) (b : list Z) :
  bytes b -> b <> [] -> (length b <= Int64.size)%nat ->
  exists v,
    deserialize category b = Some v
    /\ - 2 ^ (8 * Z.of_nat (length b) - 1) < v
       < 2 ^ (8 * Z.of_nat (length b) - 1).
Proof.
  intros Hb Hne Hlen.
  destruct b as [|x pre _] using rev_ind; [contradiction|].
  exists (sm_value pre x). split.
  - now apply deserialize_snoc.
  - now apply sm_value_bound.
Qed.

Lemma X7_deserialize_range_witness :
  exists v,
    deserialize random_access_iterator_tag [0xff; 0xff; 0xff; 0xff] = Some v
    /\ - 2 ^ (8 * Z.of_nat 4 - 1) < v < 2 ^ (8 * Z.of_nat 4 - 1).
Proof.
  apply (X7_deserialize_range random_access_iterator_tag
           [0xff; 0xff; 0xff; 0xff]).
  - repeat constructor; unfold is_byte; lia.
  - discriminate.
  - unfold Int64.size. simpl. lia.
Defined.

(** X8. The bit 0x80 of the last byte is the sign and nothing else: on a
    buffer of at most eight bytes, flipping it turns the result of
    [deserialize] into its opposite, whatever the iterator category. *)
Theorem X8_deserialize_sign_bit (category : iterator_category)
  (pre : list Z) (x : Z) :
  bytes (pre ++ [x]) -> (length (pre ++ [x]) <= Int64.size)%nat ->
  exists v,
    deserialize category (pre ++ [x]) = Some v
    /\ deserialize category (pre ++ [Z.lxor x 0x80]) = Some (- v).
Proof.
  intros Hb Hlen. exists (sm_value pre x).
  split; [now apply deserialize_snoc|].
  apply bytes_snoc in Hb as [Hpre Hx].
  rewrite deserialize_snoc.
  - now rewrite sm_value_flip.
  - apply bytes_snoc. split; [exact Hpre|].
    rewrite byte_lxor_80 by exact Hx. destruct Hx.
    destruct (Z.ltb_spec x 128); split; lia.
  - rewrite length_app in *. exact Hlen.
Qed.

Lemma X8_deserialize_sign_bit_witness :
  exists v,
    deserialize forward_iterator_tag ([0x01; 0x02] ++ [0x03]) = Some v
    /\ deserialize forward_iterator_tag ([0x01; 0x02] ++ [Z.lxor 0x03 0x80])
       = Some (- v).
Proof.
  apply (X8_deserialize_sign_bit forward_iterator_tag [0x01; 0x02] 0x03).
  - repeat constructor; unfold is_byte; lia.
  - unfold Int64.size. simpl. lia.
Defined.

(** X9. On a buffer of at most eight bytes [deserialize] returns zero
    exactly when every byte before the last one is zero and the last one is
    0x00 or 0x80: zero has many encodings, negative zero among them. *)
Theorem X9_deserialize_zero (category : iterator_category)
  (pre : list Z) (x : Z) :
  bytes (pre ++ [x]) -> (length (pre ++ [x]) <= Int64.size)%nat ->
  deserialize category (pre ++ [x]) = Some 0
  <-> Forall (fun y => y = 0) pre /\ (x = 0 \/ x = 0x80).
Proof.
  intros Hb Hlen. rewrite deserialize_snoc by assumption.
  rewrite <- (sm_value_zero_iff pre x Hb).
  split; [now intros [= ->] | now intros ->].
Qed.

Lemma X9_deserialize_zero_witness :
  deserialize bidirectional_iterator_tag ([0; 0] ++ [0x80]) = Some 0.
Proof.
  apply (X9_deserialize_zero bidirectional_iterator_tag [0; 0] 0x80).
  - repeat constructor; unfold is_byte; lia.
  - unfold Int64.size. simpl. lia.
  - split; [repeat constructor | now right].
Defined.

(** ** The checker and the rewriter together *)

Section CheckerRewriter.

Implicit Types (data pre q b : list Z) (x y t : Z) (k n : nat).

(** The size limit and the test on the last bytes are independent. *)
Lemma IsMinimallyEncoded_size b n :
  IsMinimallyEncoded b n
  = (length b <=? n)%nat && IsMinimallyEncoded b (length b).
Proof.
  destruct (buffer_end_cases b) as [-> | [[x ->] | (pre & y & x & ->)]].
  - now rewrite !IsMinimallyEncoded_nil.
  - rewrite !IsMinimallyEncoded_single. cbn [length].
    now rewrite Nat.leb_refl.
  - rewrite !IsMinimallyEncoded_two. now rewrite Nat.leb_refl.
Qed.

Lemma left_as_given_iff data :
  left_as_given data <-> IsMinimallyEncoded data (length data) = true.
Proof.
  split.
  - intros [-> | [(pre & x & -> & Hx) | (pre & y & x & -> & Hx & Hy)]].
    + apply IsMinimallyEncoded_nil.
    + rewrite IsMinimallyEncoded_snoc_nonzero by exact Hx.
      apply Nat.leb_refl.
    + rewrite IsMinimallyEncoded_two, Nat.leb_refl.
      apply Z.eqb_neq in Hy. rewrite Hy. cbn [negb]. apply orb_true_r.
  - intros Hmin. apply IsMinimallyEncoded_kept in Hmin.
    destruct (MinimallyEncode_cases data) as [[_ Hk] | (Hflag & _ & _)];
      [exact Hk|].
    rewrite Hmin in Hflag. discriminate Hflag.
Qed.

(** The four ways a call of the rewriter can go, by the shape of the
    buffer. *)
Lemma MinimallyEncode_shape data :
  (left_as_given data /\ snd (MinimallyEncode data) = data)
  \/ (exists k x,
         data = replicate k 0 ++ [x] /\ Z.land x 0x7f = 0
         /\ snd (MinimallyEncode data) = [])
  \/ (exists q t k x,
         data = q ++ [t] ++ replicate k 0 ++ [x]
         /\ t <> 0 /\ Z.land x 0x7f = 0
         /\ snd (MinimallyEncode data)
            = if negb (Z.land t 0x80 =? 0) then q ++ [t; x]
              else q ++ [Z.lor t x]).
Proof.
  destruct data as [|x pre _] using rev_ind.
  { left. split; [now left | reflexivity]. }
  destruct (Z.eq_dec (Z.land x 0x7f) 0) as [Hx | Hx].
  - right. destruct (topmost_nonzero pre) as [Hall | (q & t & k & Ht & ->)].
    + left. exists (length pre), x. rewrite <- Hall.
      repeat split; [exact Hx|].
      rewrite Hall, MinimallyEncode_all_zero by exact Hx. reflexivity.
    + right. exists q, t, k, x. rewrite <- !app_assoc.
      repeat split; [exact Ht | exact Hx|].
      now apply MinimallyEncode_topmost.
  - left.
    assert (Hk : left_as_given (pre ++ [x]))
      by (right; left; now exists pre, x).
    split; [exact Hk|]. now rewrite MinimallyEncode_kept.
Qed.

(** What the rewriter leaves needs no further rewriting. *)
Lemma MinimallyEncode_result_kept data :
  bytes data -> left_as_given (snd (MinimallyEncode data)).
Proof.
  intros Hb.
  destruct (MinimallyEncode_shape data)
    as [[Hk ->] | [(k & x & _ & _ & ->)
                  | (q & t & k & x & -> & Ht & Hx & ->)]].
  - exact Hk.
  - now left.
  - apply bytes_app in Hb as [Hq Hb].
    apply (Forall_cons is_byte t) in Hb as [Htb Hb].
    apply bytes_snoc in Hb as [_ Hb].
    pose proof (sign_byte x Hb Hx) as Hsign.
    pose proof (sign_bit t Htb) as Hbit.
    destruct Htb as [Ht0 Ht1].
    destruct (negb (Z.land t 128 =? 0)) eqn:Hset.
    + right. right. exists q, t, x. repeat split; [exact Hx|].
      apply negb_true_iff, Z.eqb_neq in Hset. exact Hset.
    + right. left. exists q, (Z.lor t x). split; [reflexivity|].
      symmetry in Hbit. apply Z.leb_gt in Hbit.
      rewrite Hsign. destruct (128 <=? x).
      * rewrite byte_lor_80, Z.mod_small by (unfold is_byte; lia).
        rewrite byte_land_7f by (unfold is_byte; lia).
        replace (t + 128) with (t + 1 * 128) by lia.
        rewrite Z.mod_add, Z.mod_small; lia.
      * rewrite Z.lor_0_r, byte_land_7f, Z.mod_small; unfold is_byte; lia.
Qed.

(** A buffer the checker accepts is what the encoder writes for its
    value. *)
Lemma minimal_reencode pre x n :
  bytes (pre ++ [x]) -> (length (pre ++ [x]) <= Int64.size)%nat ->
  IsMinimallyEncoded (pre ++ [x]) n = true ->
  serialize (sm_value pre x) [] = pre ++ [x].
Proof.
  intros Hb Hlen Hmin.
  rewrite <- MinimallyEncode_canonical by assumption.
  now rewrite (IsMinimallyEncoded_kept _ _ Hmin).
Qed.

End CheckerRewriter.

(** X10. [MinimallyEncode] keeps the number: on a buffer of one to eight
    bytes that [deserialize] reads as [v], it leaves the empty buffer when
    [v] is zero, and otherwise a buffer that [deserialize] reads as [v]
    again, whatever the iterator category. *)
Theorem X10_MinimallyEncode_keeps_value (category : iterator_category)
  (b : list Z) :
  bytes b -> b <> [] -> (length b <= Int64.size)%nat ->
  exists v,
    deserialize category b = Some v
    /\ (v = 0 -> snd (MinimallyEncode b) = [])
    /\ (v <> 0 ->
        deserialize category (snd (MinimallyEncode b)) = Some v).
Proof.
  intros Hb Hne Hlen.
  destruct b as [|x pre _] using rev_ind; [contradiction|].
  exists (sm_value pre x).
  rewrite MinimallyEncode_canonical by assumption.
  destruct (sm_value_in_range pre x Hb Hlen) as [Hrange Hmin].
  split; [now apply deserialize_snoc|]. split.
  - now intros ->.
  - intros Hv. now apply deserialize_serialize.
Qed.

Lemma X10_MinimallyEncode_keeps_value_witness :
  exists v,
    deserialize random_access_iterator_tag [0x01; 0x70; 0; 0; 0x80] = Some v
    /\ (v = 0 -> snd (MinimallyEncode [0x01; 0x70; 0; 0; 0x80]) = [])
    /\ (v <> 0 ->
        deserialize random_access_iterator_tag
          (snd (MinimallyEncode [0x01; 0x70; 0; 0; 0x80])) = Some v).
Proof.
  apply (X10_MinimallyEncode_keeps_value random_access_iterator_tag
           [0x01; 0x70; 0; 0; 0x80]).
  - repeat constructor; unfold is_byte; lia.
  - discriminate.
  - unfold Int64.size. simpl. lia.
Defined.

(** X11. [MinimallyEncode] is idempotent on buffers of bytes of any length:
    called on the buffer it has left, it reports no change and leaves that
    buffer as it is. *)
Theorem X11_MinimallyEncode_idempotent (data : list Z) :
  bytes data ->
  MinimallyEncode (snd (MinimallyEncode data))
  = (false, snd (MinimallyEncode data)).
Proof.
  intros Hb. apply MinimallyEncode_kept. now apply MinimallyEncode_result_kept.
Qed.

Lemma X11_MinimallyEncode_idempotent_witness :
  MinimallyEncode (snd (MinimallyEncode [0x80; 0; 0; 0x80]))
  = (false, snd (MinimallyEncode [0x80; 0; 0; 0x80])).
Proof.
  apply (X11_MinimallyEncode_idempotent [0x80; 0; 0; 0x80]).
  repeat constructor; unfold is_byte; lia.
Defined.

(** X12. The rewriter and the checker draw the same line: on every buffer,
    [MinimallyEncode] reports no change exactly when [IsMinimallyEncoded]
    accepts the buffer under a size limit it meets. *)
Theorem X12_MinimallyEncode_false_iff_minimal (data : list Z) (n : nat) :
  (length data <= n)%nat ->
  fst (MinimallyEncode data) = false <-> IsMinimallyEncoded data n = true.
Proof.
  intros Hlen. rewrite IsMinimallyEncoded_size.
  rewrite (proj2 (Nat.leb_le _ _) Hlen). cbn [andb].
  rewrite <- left_as_given_iff.
  destruct (MinimallyEncode_cases data) as [[Heq Hk] | (Hflag & _ & Hnot)].
  - rewrite Heq. cbn [fst]. easy.
  - rewrite Hflag. split; [discriminate | contradiction].
Qed.

Lemma X12_MinimallyEncode_false_iff_minimal_witness :
  fst (MinimallyEncode [0xff; 0x00]) = false
  <-> IsMinimallyEncoded [0xff; 0x00] 4 = true.
Proof.
  apply (X12_MinimallyEncode_false_iff_minimal [0xff; 0x00] 4).
  simpl. lia.
Defined.

(** X13. What [MinimallyEncode] leaves of a buffer of bytes, of any length,
    is accepted by [IsMinimallyEncoded] under every size limit the given
    buffer meets. *)
Theorem X13_MinimallyEncode_result_is_minimal (data : list Z) (n : nat) :
  bytes data -> (length data <= n)%nat ->
  IsMinimallyEncoded (snd (MinimallyEncode data)) n = true.
Proof.
  intros Hb Hlen. rewrite IsMinimallyEncoded_size.
  apply andb_true_iff. split.
  - apply Nat.leb_le.
    destruct (MinimallyEncode_cases data) as [[-> _] | (_ & Hshort & _)];
      cbn [snd]; lia.
  - apply left_as_given_iff. now apply MinimallyEncode_result_kept.
Qed.

Lemma X13_MinimallyEncode_result_is_minimal_witness :
  IsMinimallyEncoded (snd (MinimallyEncode [0x05; 0; 0; 0; 0; 0x80])) 6
  = true.
Proof.
  apply (X13_MinimallyEncode_result_is_minimal [0x05; 0; 0; 0; 0; 0x80] 6).
  - repeat constructor; unfold is_byte; lia.
  - simpl. lia.
Defined.

(** X14. [MinimallyEncode] only cuts the buffer and rewrites the byte it
    ends on: it never returns a longer buffer, it returns a strictly shorter
    one whenever it reports a change, and every byte of the result but the
    last is the byte the given buffer has at that place. *)
Theorem X14_MinimallyEncode_truncates (data : list Z) :
  let result := snd (MinimallyEncode data) in
  (length result <= length data)%nat
  /\ (fst (MinimallyEncode data) = true ->
      (length result < length data)%nat)
  /\ take (length result - 1) result = take (length result - 1) data.
Proof.
  cbv zeta. split; [|split].
  - destruct (MinimallyEncode_cases data) as [[-> _] | (_ & Hshort & _)];
      cbn [snd]; lia.
  - destruct (MinimallyEncode_cases data) as [[-> _] | (_ & Hshort & _)];
      [discriminate | intros _; exact Hshort].
  - destruct (MinimallyEncode_shape data)
      as [[_ ->] | [(k & x & _ & _ & ->)
                   | (q & t & k & x & -> & _ & _ & ->)]];
      [reflexivity | reflexivity |].
    destruct (negb (Z.land t 128 =? 0)).
    + replace (length (q ++ [t; x]) - 1)%nat with (length (q ++ [t]))
        by (rewrite !length_app; simpl; lia).
      replace (q ++ [t; x]) with ((q ++ [t]) ++ [x])
        by now rewrite <- app_assoc.
      replace (q ++ [t] ++ replicate k 0 ++ [x])
        with ((q ++ [t]) ++ replicate k 0 ++ [x])
        by now rewrite <- app_assoc.
      now rewrite !take_app_length.
    + replace (length (q ++ [Z.lor t x]) - 1)%nat with (length q)
        by (rewrite !length_app; simpl; lia).
      now rewrite !take_app_length.
Qed.

(** X15. Minimal encodings are unique: [deserialize] tells apart any two
    different buffers of at most eight bytes that [IsMinimallyEncoded]
    accepts. *)
Theorem X15_minimal_encoding_unique (category : iterator_category)
  (b1 b2 : list Z) (n1 n2 : nat) :
  bytes b1 -> bytes b2 ->
  (length b1 <= Int64.size)%nat -> (length b2 <= Int64.size)%nat ->
  IsMinimallyEncoded b1 n1 = true -> IsMinimallyEncoded b2 n2 = true ->
  b1 <> b2 ->
  deserialize category b1 <> deserialize category b2.
Proof.
  intros Hb1 Hb2 Hlen1 Hlen2 Hmin1 Hmin2 Hdiff Heq. apply Hdiff.
  destruct b1 as [|x1 pre1 _] using rev_ind;
    destruct b2 as [|x2 pre2 _] using rev_ind.
  - reflexivity.
  - rewrite (deserialize_snoc category pre2 x2) in Heq by assumption.
    discriminate Heq.
  - rewrite (deserialize_snoc category pre1 x1) in Heq by assumption.
    discriminate Heq.
  - rewrite !deserialize_snoc in Heq by assumption.
    injection Heq as Heq.
    rewrite <- (minimal_reencode pre1 x1 n1) by assumption.
    rewrite <- (minimal_reencode pre2 x2 n2) by assumption.
    now rewrite Heq.
Qed.

Lemma X15_minimal_encoding_unique_witness :
  deserialize bidirectional_iterator_tag [0xff; 0x00]
  <> deserialize bidirectional_iterator_tag [0xff; 0x80].
Proof.
  apply (X15_minimal_encoding_unique bidirectional_iterator_tag
           [0xff; 0x00] [0xff; 0x80] 4 4);
    try reflexivity;
    try (repeat constructor; unfold is_byte; lia);
    try discriminate;
    unfold Int64.size; simpl; lia.
Defined.

(** X16. The checker accepts a buffer of one to eight bytes under a size
    limit it meets exactly when the buffer is what [serialize] writes for
    the integer [deserialize] reads from it: the minimal buffers are the
    values of the encoder. *)
Theorem X16_minimal_iff_reencoded (category : iterator_category)
  (b : list Z) (n : nat) :
  bytes b -> b <> [] -> (length b <= Int64.size)%nat -> (length b <= n)%nat ->
  IsMinimallyEncoded b n = true
  <-> exists v, deserialize category b = Some v /\ serialize v [] = b.
Proof.
  intros Hb Hne Hlen Hn.
  destruct b as [|x pre _] using rev_ind; [contradiction|].
  split.
  - intros Hmin. exists (sm_value pre x). split.
    + now apply deserialize_snoc.
    + now apply (minimal_reencode pre x n).
  - intros (v & Hv & Hs).
    rewrite deserialize_snoc in Hv by assumption. injection Hv as <-.
    destruct (sm_value_in_range pre x Hb Hlen) as [Hrange _].
    destruct (Z.eq_dec (sm_value pre x) 0) as [H0 | H0].
    + rewrite H0, serialize_zero in Hs. now destruct pre.
    + destruct (serialize_canonical _ [] Hrange H0)
        as (q & t & Hq & Ht & _ & _ & Hc).
      rewrite Hs in Hc. cbn [app] in Hc. rewrite Hc in *.
      now apply canonical_minimal.
Qed.

Lemma X16_minimal_iff_reencoded_witness :
  IsMinimallyEncoded [0x05; 0x00] 4 = true
  <-> exists v,
      deserialize bidirectional_iterator_tag [0x05; 0x00] = Some v
      /\ serialize v [] = [0x05; 0x00].
Proof.
  apply (X16_minimal_iff_reencoded bidirectional_iterator_tag [0x05; 0x00] 4).
  - repeat constructor; unfold is_byte; lia.
  - discriminate.
  - unfold Int64.size. simpl. lia.
  - simpl. lia.
Defined.

(** X17. [MinimallyEncode] has nothing to do on what [serialize] writes for
    an [int64_t]: it reports no change and leaves the bytes as they are. *)
Theorem X17_MinimallyEncode_after_serialize (n : Z) :
  Int64.in_range n ->
  MinimallyEncode (serialize n []) = (false, serialize n []).
Proof.
  intros Hrange. destruct (Z.eq_dec n 0) as [-> | Hne]; [reflexivity|].
  destruct (serialize_canonical n [] Hrange Hne)
    as (pre & t & _ & Ht & _ & _ & ->).
  cbn [app].
  apply (IsMinimallyEncoded_kept _ (length (canonical (n <? 0) pre t))).
  now apply canonical_minimal.
Qed.

Lemma X17_MinimallyEncode_after_serialize_witness :
  MinimallyEncode (serialize (- 2 ^ 63) []) = (false, serialize (- 2 ^ 63) []).
Proof.
  apply (X17_MinimallyEncode_after_serialize (- 2 ^ 63)).
  unfold Int64.in_range, Int64.half_modulus. lia.
Defined.

(** ** The bidirectional decoder on buffers of any length *)

Section BidirectionalAnyLength.

Implicit Types (pre rest b : list Z) (x c p result : Z).

Lemma wrap_unique a z k :
  Int64.in_range a -> a = z + k * Int64.modulus -> Int64.wrap z = a.
Proof.
  unfold Int64.in_range, Int64.wrap, Int64.half_modulus, Int64.modulus.
  intros Ha ->.
  replace (z + 2 ^ 63) with (z + k * 2 ^ 64 + 2 ^ 63 + (- k) * 2 ^ 64) by lia.
  rewrite Z.mod_add by lia. rewrite Z.mod_small; lia.
Qed.

Lemma wrap_congruent z : exists k, Int64.wrap z = z + k * Int64.modulus.
Proof.
  unfold Int64.wrap, Int64.half_modulus, Int64.modulus.
  exists (- ((z + 2 ^ 63) / 2 ^ 64)).
  pose proof (Z.div_mod (z + 2 ^ 63) (2 ^ 64) ltac:(lia)). lia.
Qed.

Lemma wrap_periodic z k : Int64.wrap (z + k * Int64.modulus) = Int64.wrap z.
Proof.
  unfold Int64.wrap, Int64.half_modulus, Int64.modulus.
  replace (z + k * 2 ^ 64 + 2 ^ 63) with (z + 2 ^ 63 + k * 2 ^ 64) by lia.
  now rewrite Z.mod_add by lia.
Qed.

(** The number under the sign: the last byte with its sign bit taken
    off. *)
Lemma masked_last x :
  is_byte x ->
  is_byte (if 128 <=? x then Z.land x 0x7f else x)
  /\ (if 128 <=? x then Z.land x 0x7f else x)
     = (if x <? 128 then x else x - 128).
Proof.
  intros [Hx0 Hx1].
  destruct (Z.leb_spec 128 x), (Z.ltb_spec x 128); try lia.
  - rewrite magnitude_bits by (unfold is_byte; lia). unfold is_byte. lia.
  - unfold is_byte. lia.
Qed.

(** Shifting the accumulator by one byte keeps its low 64 bits in step with
    the number read so far. *)
Lemma bidi_step_wrap v p :
  is_byte p ->
  deserialize_bidi_step (Int64.wrap v) p = Int64.wrap (p + 256 * v).
Proof.
  intros [Hp0 Hp1]. unfold deserialize_bidi_step, Int64.shl.
  change (8 mod 64) with 8.
  rewrite Z.shiftl_mul_pow2 by lia. change (2 ^ 8) with 256.
  destruct (wrap_congruent v) as [k Hk].
  destruct (wrap_congruent (Int64.wrap v * 256)) as [k' Hk'].
  pose proof (wrap_range (Int64.wrap v * 256)) as Hr.
  set (w := Int64.wrap (Int64.wrap v * 256)) in *.
  unfold Int64.in_range, Int64.half_modulus, Int64.modulus in *.
  (* [w] is a multiple of 256 *)
  assert (Hw : w = 256 * (Int64.wrap v + k' * 2 ^ 56)) by lia.
  set (c := Int64.wrap v + k' * 2 ^ 56) in *.
  rewrite Hw, Z.lor_comm.
  replace (256 * c) with (Z.shiftl c 8)
    by (rewrite Z.shiftl_mul_pow2 by lia; change (2 ^ 8) with 256; lia).
  rewrite lor_shiftl_add by (change (2 ^ 8) with 256; lia).
  change (2 ^ 8) with 256. symmetry.
  apply wrap_unique with (k := 256 * k + k').
  - unfold Int64.in_range, Int64.half_modulus. lia.
  - unfold Int64.modulus. subst c. lia.
Qed.

Lemma bidi_fold_wrap pre top :
  bytes pre ->
  fold_left deserialize_bidi_step (rev pre) (Int64.wrap top)
  = Int64.wrap (le_value (pre ++ [top])).
Proof.
  induction 1 as [|p pre Hp Hpre IH].
  - cbn [rev fold_left app le_value]. f_equal. lia.
  - cbn [rev]. rewrite fold_left_app. cbn [fold_left].
    rewrite IH. now rewrite bidi_step_wrap.
Qed.

Lemma deserialize_bidi_wrap pre x :
  bytes (pre ++ [x]) ->
  deserialize_bidi (pre ++ [x])
  = Some (if x <? 128 then Int64.wrap (le_value (pre ++ [x]))
          else Int64.neg (Int64.wrap (le_value (pre ++ [x - 128])))).
Proof.
  intros Hb. apply bytes_snoc in Hb as [Hpre Hx].
  unfold deserialize_bidi. rewrite rev_unit. cbv zeta.
  rewrite sign_bit by exact Hx.
  destruct (masked_last x Hx) as [[Hm0 Hm1] Hm'].
  set (top := if 128 <=? x then Z.land x 127 else x) in *.
  assert (Htop : Int64.wrap top = top)
    by (apply wrap_in_range; unfold Int64.in_range, Int64.half_modulus; lia).
  assert (Hfold : fold_left deserialize_bidi_step (rev pre) top
                  = Int64.wrap (le_value (pre ++ [top]))).
  { rewrite <- Htop at 1. now apply bidi_fold_wrap. }
  assert (Hres : (if 128 <=? x
                  then Int64.neg (fold_left deserialize_bidi_step (rev pre) top)
                  else fold_left deserialize_bidi_step (rev pre) top)
                 = if x <? 128 then Int64.wrap (le_value (pre ++ [x]))
                   else Int64.neg (Int64.wrap (le_value (pre ++ [x - 128])))).
  { rewrite Hfold, Hm'. destruct Hx.
    destruct (Z.leb_spec 128 x), (Z.ltb_spec x 128); try lia; reflexivity. }
  rewrite <- Hres.
  destruct (rev pre) as [|y before] eqn:Er; [|reflexivity].
  reflexivity.
Qed.

(** With eight bytes below it, the last byte is shifted out whole. *)
Lemma wrap_ninth_byte pre c :
  length pre = Int64.size ->
  Int64.wrap (le_value (pre ++ [c])) = Int64.wrap (le_value pre).
Proof.
  intros Hlen. rewrite le_value_snoc, Hlen.
  change (256 ^ Z.of_nat Int64.size) with Int64.modulus.
  rewrite (Z.mul_comm Int64.modulus). apply wrap_periodic.
Qed.

End BidirectionalAnyLength.

(** X18. On a buffer of [sizeof(int64_t) + 1 = 9] bytes the bidirectional
    and the random access [deserialize] differ by the sign alone: the
    bidirectional one returns what the random access one returns when the
    last byte has its bit 0x80 clear, and the two's complement negation of
    it when that bit is set. *)
Theorem X18_nine_bytes_compared (pre : list Z) (x : Z) :
  bytes (pre ++ [x]) -> length pre = Int64.size ->
  exists result,
    deserialize_ra (pre ++ [x]) = Some result
    /\ deserialize_bidi (pre ++ [x])
       = Some (if x <? 128 then result else Int64.neg result).
Proof.
  intros Hb Hlen. exists (Int64.wrap (le_value pre)). split.
  - apply bytes_snoc in Hb as [Hpre _].
    destruct pre as [|y q _] using rev_ind; [discriminate Hlen|].
    apply bytes_snoc in Hpre as [Hq Hy].
    rewrite length_app in Hlen. unfold Int64.size in Hlen. simpl in Hlen.
    rewrite <- app_assoc. cbn [app].
    apply deserialize_ra_nine; [assumption | assumption | lia].
  - rewrite deserialize_bidi_wrap by exact Hb.
    now rewrite !wrap_ninth_byte by exact Hlen.
Qed.

Lemma X18_nine_bytes_compared_witness :
  exists result,
    deserialize_ra ([1; 0; 0; 0; 0; 0; 0; 0] ++ [0x80]) = Some result
    /\ deserialize_bidi ([1; 0; 0; 0; 0; 0; 0; 0] ++ [0x80])
       = Some (if 0x80 <? 128 then result else Int64.neg result).
Proof.
  apply (X18_nine_bytes_compared [1; 0; 0; 0; 0; 0; 0; 0] 0x80).
  - repeat constructor; unfold is_byte; lia.
  - reflexivity.
Defined.
